(** * The Translator of the static analysis: lifting catalog blocks to IR

    A shallow embedding of [static_analysis/src/translator.cpp]: the
    terminator classifier [get_terminator], the block processor
    [process_block] / [finalize_block], the tail-jump detector
    [detect_tail_jumps], the function translator [translate_function] and the
    registry accessors, together with the properties the specification states
    about them.

    Addresses are 64-bit unsigned integers, modelled as [Z] with the
    wrap-around of the one addition the code performs written out
    ([wrap64]).  The registry ([std::map] / [std::set]) is modelled with
    stdpp's [gmap] and [gset]. *)

From Stdlib Require Import ZArith Lia Bool.
From stdpp Require Import base tactics option list gmap sets sorting.

Local Open Scope Z_scope.

#[local] Set Warnings "-clear-no-such-hyp".

(** ** The part of the VEX IR the translator inspects *)

Module Vex.

(** [IRConst]: a tagged union; the translator only ever reads and writes
    the union through its [Ico.U64] member, whatever the tag says. *)
Inductive IRConstTag : Type :=
| Ico_U64
| Ico_Other (tag : nat).

Record IRConst : Type := MkIRConst {
  con_tag : IRConstTag;
  Ico_U64_val : Z
}.

(** [IRExpr]: only the [Iex_Const] tag is inspected; every other expression
    is carried along as an opaque payload. *)
Inductive IRExpr : Type :=
| Iex_Const (con : IRConst)
| Iex_Other (payload : nat).

(** [IRStmt]: only [Ist_IMark] (address and byte length of one machine
    instruction) and [Ist_Exit] (conditional side exit with a constant
    destination) are inspected. *)
Inductive IRStmt : Type :=
| Ist_IMark (addr : Z) (len : Z)
| Ist_Exit (dst : IRConst)
| Ist_Other (payload : nat).

Inductive IRJumpKind : Type :=
| Ijk_Boring
| Ijk_Call
| Ijk_Ret
| Ijk_NoDecode
| Ijk_Other (kind : nat).

(** [IRSB]: the statement array, the number of statements in use, the
    [next] expression and the jump kind.  Statements at indices
    [>= stmts_used] stay in the array (truncation only lowers
    [stmts_used]). *)
Record IRSB : Type := MkIRSB {
  stmts : list IRStmt;
  stmts_used : nat;
  next : IRExpr;
  jumpkind : IRJumpKind
}.

Definition is_IMark (s : IRStmt) : bool :=
  match s with Ist_IMark _ _ => true | _ => false end.

(** The statements a loop [for (i = 0; i < stmts_used; ++i)] visits. *)
Definition active (b : IRSB) : list IRStmt := take (stmts_used b) (stmts b).

End Vex.

Import Vex.

#[global] Instance IRJumpKind_eq_dec : EqDecision IRJumpKind.
Proof. solve_decision. Defined.

(** ** Terminators *)

Inductive TerminatorType : Type :=
| TerminatorCall
| TerminatorCallUnresolved
| TerminatorJump
| TerminatorJcc
| TerminatorReturn
| TerminatorFallthrough
| TerminatorNoReturn
| TerminatorUnresolved.

#[global] Instance TerminatorType_eq_dec : EqDecision TerminatorType.
Proof. solve_decision. Defined.

Record Terminator : Type := MkTerminator {
  type : TerminatorType;
  target : Z;
  fall_through : Z;
  is_tail : bool
}.

Definition set_type (ty : TerminatorType) (t : Terminator) : Terminator :=
  {| type := ty; target := target t; fall_through := fall_through t;
     is_tail := is_tail t |}.

Definition set_is_tail (b : bool) (t : Terminator) : Terminator :=
  {| type := type t; target := target t; fall_through := fall_through t;
     is_tail := b |}.

(** 64-bit unsigned wrap-around. *)
Definition wrap64 (x : Z) : Z := x mod 2 ^ 64.

(** ** The terminator classifier, [Translator::get_terminator] *)

Section Classifier.

(** [Terminator result;] leaves [is_tail] to the constructor of
    [Terminator], which is declared in a header outside the translation
    unit; the classifier never assigns it.  Its value is a parameter. *)
Variable residual_is_tail : bool.

(** First loop: scan the statements in reverse for the last [Ist_IMark].
    The argument is the reversed list of active statements. *)
Fixpoint find_last_mark (rs : list IRStmt) : option (Z * Z) :=
  match rs with
  | [] => None
  | Ist_IMark addr len :: _ => Some (addr, len)
  | _ :: rs' => find_last_mark rs'
  end.

Definition last_mark (block : IRSB) : option (Z * Z) :=
  find_last_mark (reverse (active block)).

(** [result.fall_through] and [last_addr] after the first loop. *)
Definition fall_through0 (block : IRSB) : Z :=
  match last_mark block with
  | Some (addr, len) => wrap64 (addr + len)
  | None => 0
  end.

Definition last_addr (block : IRSB) : Z :=
  match last_mark block with
  | Some (addr, _) => addr
  | None => 0
  end.

(** [switch (block.next->tag)]. *)
Definition jmp_call_target (block : IRSB) : Z :=
  match next block with
  | Iex_Const con => Ico_U64_val con
  | _ => 0
  end.

Definition is_jmp_call (block : IRSB) : bool :=
  negb (fall_through0 block =? jmp_call_target block).

(** Second loop, [for (i = stmts_used - 1; !jcc_target && i >= 0; --i)],
    over the reversed active statements, threading [jcc_target] and
    [is_conditional]. *)
Fixpoint scan_exits (block_start la ft jct : Z) (rs : list IRStmt)
    (jcc_target : Z) (is_conditional : bool) : Z * bool :=
  if negb (jcc_target =? 0) then (jcc_target, is_conditional)
  else
    match rs with
    | [] => (jcc_target, is_conditional)
    | Ist_IMark _ _ :: _ => (jcc_target, is_conditional)
    | Ist_Exit dst :: rs' =>
        let jcc1 := Ico_U64_val dst in
        let jcc2 := if (jcc1 =? jct) && (ft =? jcc1) then 0 else jcc1 in
        if (block_start <? jcc2) && (jcc2 <=? la)
        then scan_exits block_start la ft jct rs' 0 false
        else scan_exits block_start la ft jct rs' jcc2 true
    | Ist_Other _ :: rs' =>
        scan_exits block_start la ft jct rs' jcc_target is_conditional
    end.

Definition scan (block : IRSB) (block_start : Z) : Z * bool :=
  scan_exits block_start (last_addr block) (fall_through0 block)
    (jmp_call_target block) (reverse (active block)) 0 false.

(** The guard of the fusion step:
    [if (is_conditional && is_jmp_call) if (jcc_target == fall_through)]. *)
Definition fusion_fires (block : IRSB) (block_start : Z) : bool :=
  let '(jcc_target, is_conditional) := scan block block_start in
  is_conditional && is_jmp_call block && (jcc_target =? fall_through0 block).

(** [jcc_target] after the fusion step. *)
Definition fused_jcc_target (block : IRSB) (block_start : Z) : Z :=
  if fusion_fires block block_start then jmp_call_target block
  else fst (scan block block_start).

(** [switch (block.jumpkind)]. *)
Definition dispatch (jk : IRJumpKind) (jcc_target jct la ft : Z)
    : Terminator :=
  match jk with
  | Ijk_NoDecode => MkTerminator TerminatorFallthrough 0 jct residual_is_tail
  | Ijk_Ret => MkTerminator TerminatorReturn 0 0 residual_is_tail
  | Ijk_Call =>
      if negb (jct =? 0)
      then MkTerminator TerminatorCall jct ft residual_is_tail
      else MkTerminator TerminatorCallUnresolved 0 ft residual_is_tail
  | Ijk_Boring =>
      if negb (jcc_target =? 0)
      then MkTerminator TerminatorJcc jcc_target ft residual_is_tail
      else if jct =? la
      then MkTerminator TerminatorFallthrough 0 ft residual_is_tail
      else if jct =? ft
      then MkTerminator TerminatorJump jct 0 residual_is_tail
      else if negb (jct =? 0)
      then MkTerminator TerminatorJump jct 0 residual_is_tail
      else MkTerminator TerminatorUnresolved 0 0 residual_is_tail
  | Ijk_Other _ => MkTerminator TerminatorUnresolved 0 0 residual_is_tail
  end.

Definition get_terminator (block : IRSB) (block_start : Z) : Terminator :=
  dispatch (jumpkind block) (fused_jcc_target block block_start)
    (jmp_call_target block) (last_addr block) (fall_through0 block).

End Classifier.

(** ** Blocks, functions and the translator's registry *)

(** [BlockDescriptor], an entry of the dump catalog.  Instruction counts
    are natural numbers: the counter arithmetic of the block processor
    ([instruction_count + 1], [instruction_count - head_instructions])
    cannot wrap where it is evaluated, because a super-block holds fewer
    than [2^31] statements. *)
Record BlockDescriptor : Type := MkBlockDescriptor {
  block_start : Z;
  block_end : Z;
  instruction_count : nat
}.

(** Modelled from the spec: the [Block] class lives outside the
    translation unit; a block is its address, its IR super-block and its
    terminator. *)
Record Block : Type := MkBlock {
  get_address : Z;
  get_irsb : IRSB;
  block_terminator : Terminator
}.

(** Modelled from the spec: the [Function] class lives outside the
    translation unit; a function is its entry address, a map from block
    address to block, two sets of cross references and a finalized flag. *)
Record Function : Type := MkFunction {
  entry_address : Z;
  get_blocks : gmap Z Block;
  xrefs : gset Z;
  vfunc_xrefs : gset Z;
  finalized : bool
}.

(** [Function(address)] *)
Definition Function_new (address : Z) : Function :=
  MkFunction address ∅ ∅ ∅ false.

Definition set_blocks (bs : gmap Z Block) (f : Function) : Function :=
  MkFunction (entry_address f) bs (xrefs f) (vfunc_xrefs f) (finalized f).

(** [Function::add_block(address, block_pointer, terminator)] *)
Definition add_block (address : Z) (ir : IRSB) (t : Terminator)
    (f : Function) : Function :=
  set_blocks (<[address := MkBlock address ir t]> (get_blocks f)) f.

(** [Function::finalize()] *)
Definition Function_finalize (f : Function) : Function :=
  MkFunction (entry_address f) (get_blocks f) (xrefs f) (vfunc_xrefs f) true.

(** [Function::add_xref], [Function::add_vfunc_xref] *)
Definition add_xref (x : Z) (f : Function) : Function :=
  MkFunction (entry_address f) (get_blocks f) ({[x]} ∪ xrefs f)
    (vfunc_xrefs f) (finalized f).

Definition add_vfunc_xref (x : Z) (f : Function) : Function :=
  MkFunction (entry_address f) (get_blocks f) (xrefs f)
    ({[x]} ∪ vfunc_xrefs f) (finalized f).

(** The state of a [Translator]: the three keyed stores, the finalized
    flag, and the two tables of the dump file. *)
Record Translator : Type := MkTranslator {
  _functions : gmap Z Function;
  _blocks : gmap Z IRSB;
  _seen_blocks : gset Z;
  _is_finalized : bool;
  non_returning : gset Z;
  dump_functions : gmap Z (list BlockDescriptor)
}.

Definition set_functions (fs : gmap Z Function) (tr : Translator)
    : Translator :=
  MkTranslator fs (_blocks tr) (_seen_blocks tr) (_is_finalized tr)
    (non_returning tr) (dump_functions tr).

Definition set_blocks_map (bs : gmap Z IRSB) (tr : Translator)
    : Translator :=
  MkTranslator (_functions tr) bs (_seen_blocks tr) (_is_finalized tr)
    (non_returning tr) (dump_functions tr).

Definition set_seen_blocks (s : gset Z) (tr : Translator) : Translator :=
  MkTranslator (_functions tr) (_blocks tr) s (_is_finalized tr)
    (non_returning tr) (dump_functions tr).

Definition set_is_finalized (b : bool) (tr : Translator) : Translator :=
  MkTranslator (_functions tr) (_blocks tr) (_seen_blocks tr) b
    (non_returning tr) (dump_functions tr).

(** ** The block processor *)

(** [head_instructions]: the number of [Ist_IMark] among the active
    statements. *)
Definition count_imarks (ss : list IRStmt) : nat :=
  length (filter (λ s, is_IMark s = true) ss).

Definition head_instructions (ir : IRSB) : nat := count_imarks (active ir).

(** The truncation loop: walk the statements from index [i] with the
    running [instr_counter]; the result is the index and address of the
    [Ist_IMark] at which the counter reaches zero. *)
Fixpoint truncate_scan (ss : list IRStmt) (i : nat) (instr_counter : nat)
    : option (nat * Z) :=
  match ss with
  | [] => None
  | Ist_IMark addr _ :: ss' =>
      let instr_counter' := (instr_counter - 1)%nat in
      if (instr_counter' =? 0)%nat then Some (i, addr)
      else truncate_scan ss' (S i) instr_counter'
  | _ :: ss' => truncate_scan ss' (S i) instr_counter
  end.

(** The rewrite of [next]: overwrite the 64-bit value of an existing
    constant in place, or point [next] at a fresh [Ico_U64] constant. *)
Definition retarget_next (e : IRExpr) (addr : Z) : IRExpr :=
  match e with
  | Iex_Const con => Iex_Const (MkIRConst (con_tag con) addr)
  | Iex_Other _ => Iex_Const (MkIRConst Ico_U64 addr)
  end.

Definition truncate_block (count : nat) (ir : IRSB) : IRSB :=
  match truncate_scan (active ir) 0 (count + 1) with
  | Some (i, addr) =>
      MkIRSB (stmts ir) i (retarget_next (next ir) addr) Ijk_NoDecode
  | None => ir
  end.

(** [deepCopyIRSB_Heap]: an owning copy, equal to the original as a
    value. *)
Definition deepCopyIRSB_Heap (ir : IRSB) : IRSB := ir.

(** The state in which the recursive call and [finalize_block] run:
    [block_start] has been inserted into [_seen_blocks]. *)
Definition mark_seen (block : BlockDescriptor) (tr : Translator)
    : Translator :=
  set_seen_blocks ({[block_start block]} ∪ _seen_blocks tr) tr.

(** The registry after [_functions[address] = Function(address)]. *)
Definition fresh_entry (address : Z) (tr : Translator) : Translator :=
  set_functions (<[address := Function_new address]> (_functions tr)) tr.

Section BlockProcessor.

Variable residual_is_tail : bool.

(** The external lifter [Vex::translate] over the fixed memory image:
    from an address and a maximal instruction count to the lifted
    super-block and [real_end]. *)
Variable vex_translate : Z → nat → IRSB * Z.

(** The non-returning overlay of [finalize_block]. *)
Definition overlay_no_return (nr : gset Z) (t : Terminator) : Terminator :=
  match type t with
  | TerminatorCall | TerminatorJump =>
      if decide (target t ∈ nr) then set_type TerminatorNoReturn t else t
  | _ => t
  end.

(** The terminator [finalize_block] attaches: the classifier's, with
    the overlay. *)
Definition final_terminator (tr : Translator) (block : BlockDescriptor)
    (ir : IRSB) : Terminator :=
  overlay_no_return (non_returning tr)
    (get_terminator residual_is_tail ir (block_start block)).

(** [Translator::finalize_block]; [fn] is the registry key of the
    [Function &function] the caller holds a reference to. *)
Definition finalize_block (tr : Translator) (fn : Z)
    (block : BlockDescriptor) (block_pointer : IRSB) : Translator :=
  let terminator := final_terminator tr block block_pointer in
  let tr' :=
    set_functions
      (alter (add_block (block_start block) block_pointer terminator) fn
         (_functions tr)) tr in
  set_blocks_map (<[block_start block := block_pointer]> (_blocks tr')) tr'.

(** [Translator::process_block].  The recursion on the split descriptor
    is bounded by [fuel]; [None] means the fuel ran out. *)
Fixpoint process_block (fuel : nat) (tr : Translator) (fn : Z)
    (block : BlockDescriptor) : option (bool * Translator) :=
  match fuel with
  | O => None
  | S fuel' =>
      if block_start block =? block_end block then Some (true, tr)
      else if decide (block_start block ∈ _seen_blocks tr)
      then Some (true, tr)
      else
        let '(translated_block, real_end) :=
          vex_translate (block_start block) (instruction_count block) in
        let tr1 := mark_seen block tr in
        let block_pointer := deepCopyIRSB_Heap translated_block in
        let head := head_instructions block_pointer in
        if (head <? instruction_count block)%nat then
          let split :=
            MkBlockDescriptor real_end (block_end block)
              (instruction_count block - head) in
          match process_block fuel' tr1 fn split with
          | None => None
          | Some (r, tr2) =>
              Some (true && r, finalize_block tr2 fn block block_pointer)
          end
        else
          Some (true,
                finalize_block tr1 fn block
                  (truncate_block (instruction_count block) block_pointer))
  end.

(** ** The tail-jump detector *)

(** The body of the loop of [detect_tail_jumps] for one block.  The loop
    writes nothing but [is_tail] of the block it visits and reads nothing
    but that block's terminator and the addresses of the function's
    blocks, so the blocks can be rewritten independently. *)
Definition is_target (target : Z) (b : Block) : bool :=
  bool_decide (get_address b = target).

Definition detect_tail (blocks : gmap Z Block) (b : Block) : Block :=
  let terminator := set_is_tail false (block_terminator b) in
  match type terminator with
  | TerminatorJump =>
      let needle :=
        existsb (is_target (target terminator)) (snd <$> map_to_list blocks) in
      MkBlock (get_address b) (get_irsb b)
        (set_is_tail (negb needle) terminator)
  | _ => MkBlock (get_address b) (get_irsb b) terminator
  end.

Definition detect_tail_jumps (f : Function) : Function :=
  set_blocks (detect_tail (get_blocks f) <$> get_blocks f) f.

(** ** The function translator *)

(** The loop of [translate_function] over the catalog blocks, leaving at
    the first [false]. *)
Fixpoint process_blocks (fuel : nat) (tr : Translator) (fn : Z)
    (blocks : list BlockDescriptor) : option (bool * Translator) :=
  match blocks with
  | [] => Some (true, tr)
  | b :: rest =>
      match process_block fuel tr fn b with
      | None => None
      | Some (false, tr') => Some (false, tr')
      | Some (true, tr') => process_blocks fuel tr' fn rest
      end
  end.

(** [_functions.erase(address)] on the failure path. *)
Definition discard_function (address : Z) (tr : Translator) : Translator :=
  set_functions (delete address (_functions tr)) tr.

(** [Translator::translate_function].  The returned [Function *] is a
    pointer into the registry, modelled by the key it is stored under;
    [None] is [nullptr]. *)
Definition translate_function (fuel : nat) (tr : Translator)
    (current : Z * list BlockDescriptor) : option (option Z * Translator) :=
  let address := fst current in
  let blocks := snd current in
  let tr0 := fresh_entry address tr in
  match process_blocks fuel tr0 address blocks with
  | None => None
  | Some (false, tr1) => Some (None, discard_function address tr1)
  | Some (true, tr1) =>
      Some (Some address,
            set_functions
              (alter (λ f, Function_finalize (detect_tail_jumps f)) address
                 (_functions tr1)) tr1)
  end.

(** [Translator::maybe_translate_function] *)
Definition maybe_translate_function (fuel : nat) (tr : Translator)
    (address : Z) : option (option Z * Translator) :=
  match _functions tr !! address with
  | Some _ => Some (Some address, tr)
  | None =>
      match dump_functions tr !! address with
      | None => Some (None, tr)
      | Some blocks => translate_function fuel tr (address, blocks)
      end
  end.

End BlockProcessor.

(** ** The function translator over its callee

    The code of [translate_function] uses nothing of [process_block] but
    the flag it returns and the state it leaves.  Here the callee is a
    parameter, so that both arms of [if (!process_block(function, *i))]
    can be followed. *)

Section FunctionTranslatorOver.

Variable process :
  Translator → Z → BlockDescriptor → option (bool * Translator).

(** The loop over the catalog blocks, leaving at the first [false]. *)
Fixpoint process_blocks_with (tr : Translator) (fn : Z)
    (blocks : list BlockDescriptor) : option (bool * Translator) :=
  match blocks with
  | [] => Some (true, tr)
  | b :: rest =>
      match process tr fn b with
      | None => None
      | Some (false, tr') => Some (false, tr')
      | Some (true, tr') => process_blocks_with tr' fn rest
      end
  end.

(** [Translator::translate_function] *)
Definition translate_function_with (tr : Translator)
    (current : Z * list BlockDescriptor) : option (option Z * Translator) :=
  let address := fst current in
  let blocks := snd current in
  let tr0 := fresh_entry address tr in
  match process_blocks_with tr0 address blocks with
  | None => None
  | Some (false, tr1) => Some (None, discard_function address tr1)
  | Some (true, tr1) =>
      Some (Some address,
            set_functions
              (alter (λ f, Function_finalize (detect_tail_jumps f)) address
                 (_functions tr1)) tr1)
  end.

End FunctionTranslatorOver.

(** ** The public accessors and their lock discipline *)

(** What an accessor does to the shared state, as far as the mutex is
    concerned: it takes the mutex, releases it, or touches the registry
    ([_functions], [_blocks], [_seen_blocks], [_is_finalized]). *)
Inductive Event : Type :=
| EvLock
| EvUnlock
| EvRegistry.

(** The two failures the accessors raise as [runtime_error]. *)
Inductive Error : Type :=
| NotFound
| Finalized.

(** A body that reads or writes the registry. *)
Definition touching {A : Type} (x : A) : list Event * A := ([EvRegistry], x).

(** [lock_guard<mutex> _(_mutex);] as the first statement of a body: the
    mutex is held from there to the end of the scope, also when the body
    throws. *)
Definition lock_guard {A : Type} (body : list Event * A) : list Event * A :=
  (EvLock :: fst body ++ [EvUnlock], snd body).

(** Every registry access of a trace happens while the mutex is held. *)
Fixpoint serialized (held : bool) (trace : list Event) : bool :=
  match trace with
  | [] => true
  | EvLock :: rest => serialized true rest
  | EvUnlock :: rest => serialized false rest
  | EvRegistry :: rest => held && serialized held rest
  end.

Section Accessors.

Variable residual_is_tail : bool.
Variable vex_translate : Z → nat → IRSB * Z.

(** [Function::contains_address], defined outside the translation unit. *)
Variable contains_address : Function → Z → bool.

Definition get_function (fuel : nat) (tr : Translator) (address : Z)
    : list Event * option ((Error + Z) * Translator) :=
  lock_guard (touching
    match
      maybe_translate_function residual_is_tail vex_translate fuel tr address
    with
    | None => None
    | Some (None, tr') => Some (inl NotFound, tr')
    | Some (Some function, tr') => Some (inr function, tr')
    end).

Definition cget_function (tr : Translator) (address : Z)
    : list Event * (Error + Function) :=
  lock_guard (touching
    match _functions tr !! address with
    | Some function => inr function
    | None => inl NotFound
    end).

Definition maybe_get_function (fuel : nat) (tr : Translator) (address : Z)
    : list Event * option (option Z * Translator) :=
  lock_guard (touching
    (maybe_translate_function residual_is_tail vex_translate fuel tr address)).

Definition get_functions_mutable (tr : Translator)
    : list Event * (Error + gmap Z Function) :=
  lock_guard (touching
    (if _is_finalized tr then inl Finalized else inr (_functions tr))).

Definition finalize (tr : Translator) : list Event * Translator :=
  touching (set_is_finalized true tr).

(** [for (const auto &kv : _functions)]: the registry in ascending key
    order. *)
Definition functions_in_order (tr : Translator) : list Function :=
  omap (λ k, _functions tr !! k)
    (merge_sort Z.le (elements (dom (_functions tr)))).

Definition get_containing_function (tr : Translator) (addr : Z)
    : list Event * (Error + Function) :=
  touching
    match
      List.find (λ f, contains_address f addr) (functions_in_order tr)
    with
    | Some function => inr function
    | None => inl NotFound
    end.

Definition add_function_xref (tr : Translator) (fct_addr xref_addr : Z)
    : list Event * (Error + Translator) :=
  lock_guard (touching
    match _functions tr !! fct_addr with
    | None => inl NotFound
    | Some _ =>
        inr (set_functions
               (alter (add_xref xref_addr) fct_addr (_functions tr)) tr)
    end).

Definition add_function_vfunc_xref (tr : Translator) (fct_addr xref_addr : Z)
    : list Event * (Error + Translator) :=
  lock_guard (touching
    match _functions tr !! fct_addr with
    | None => inl NotFound
    | Some _ =>
        inr (set_functions
               (alter (add_vfunc_xref xref_addr) fct_addr (_functions tr)) tr)
    end).

End Accessors.

(** ** Eager translation and construction *)

(** The format tag the constructor switches on. *)
Inductive FileFormatType : Type :=
| FileFormatELF64
| FileFormatPE64
| FileFormatOther (tag : nat).

(** [throw runtime_error("Format not supported.")] *)
Inductive ConstructionError : Type :=
| FormatNotSupported.

Section Construction.

Variable residual_is_tail : bool.
Variable vex_translate : Z → nat → IRSB * Z.

(** [for (const auto &kv : functions)]: the catalog in ascending key
    order. *)
Definition catalog_in_order (tr : Translator)
    : list (Z * list BlockDescriptor) :=
  omap (λ k, (λ blocks, (k, blocks)) <$> dump_functions tr !! k)
    (merge_sort Z.le (elements (dom (dump_functions tr)))).

(** The loop of [parse_known_functions]: each entry is translated, the
    handle is dropped. *)
Fixpoint translate_all (fuel : nat) (tr : Translator)
    (entries : list (Z * list BlockDescriptor)) : option Translator :=
  match entries with
  | [] => Some tr
  | kv :: rest =>
      match translate_function residual_is_tail vex_translate fuel tr kv with
      | None => None
      | Some (_, tr') => translate_all fuel tr' rest
      end
  end.

(** [Translator::parse_known_functions] *)
Definition parse_known_functions (fuel : nat) (tr : Translator)
    : option Translator :=
  translate_all fuel tr (catalog_in_order tr).

(** [Translator::Translator].  The dump file gives the two tables; the
    memory image the format selects is the one the lifter reads.  The
    member [_is_finalized] is assigned only at the end, so the eager
    translation runs with whatever the member holds
    ([indeterminate]). *)
Definition Translator_new (fuel : nat) (no_return : gset Z)
    (catalog : gmap Z (list BlockDescriptor)) (file_format : FileFormatType)
    (parse_on_demand : bool) (indeterminate : bool)
    : option (ConstructionError + Translator) :=
  match file_format with
  | FileFormatOther _ => Some (inl FormatNotSupported)
  | _ =>
      let tr0 := MkTranslator ∅ ∅ ∅ indeterminate no_return catalog in
      if parse_on_demand then Some (inr (set_is_finalized false tr0))
      else
        match parse_known_functions fuel tr0 with
        | None => None
        | Some tr1 => Some (inr (set_is_finalized false tr1))
        end
  end.

End Construction.

(** * Vocabulary of the properties *)


(** The addresses [process_block] lifts at for a descriptor, given the
    addresses seen beforehand: the start of the descriptor if the
    descriptor is not empty and its start not seen, and, when the lifter
    under-translates there and reports [real_end], the addresses it
    lifts at for the split descriptor [(real_end, block_end,
    instruction_count - head_instructions)]. *)
Inductive lifted_from (vex_translate : Z → nat → IRSB * Z) (seen : gset Z)
    : BlockDescriptor → Z → Prop :=
| lifted_start block :
    block_start block ≠ block_end block →
    block_start block ∉ seen →
    lifted_from vex_translate seen block (block_start block)
| lifted_split block translated real_end a :
    block_start block ≠ block_end block →
    block_start block ∉ seen →
    vex_translate (block_start block) (instruction_count block)
      = (translated, real_end) →
    (head_instructions translated < instruction_count block)%nat →
    lifted_from vex_translate seen
      (MkBlockDescriptor real_end (block_end block)
         (instruction_count block - head_instructions translated)) a →
    lifted_from vex_translate seen block a.

(** A block stored under key [k] carries, up to [is_tail], the
    terminator the classifier and the non-returning overlay give for its
    own super-block. *)
Definition block_classified (r : bool) (nr : gset Z) (k : Z) (b : Block)
    : Prop :=
  type (block_terminator b)
    = type (overlay_no_return nr (get_terminator r (get_irsb b) k))
  ∧ target (block_terminator b)
      = target (overlay_no_return nr (get_terminator r (get_irsb b) k))
  ∧ fall_through (block_terminator b)
      = fall_through (overlay_no_return nr (get_terminator r (get_irsb b) k)).

(** The registry is consistent: every block of every function sits at a
    seen address, under its own address, with the super-block the global
    map holds for that address, classified, and in no other function. *)
Definition registry_wf (r : bool) (tr : Translator) : Prop :=
  ∀ fn F a b,
    _functions tr !! fn = Some F →
    get_blocks F !! a = Some b →
    a ∈ _seen_blocks tr
    ∧ get_address b = a
    ∧ _blocks tr !! a = Some (get_irsb b)
    ∧ block_classified r (non_returning tr) a b
    ∧ ∀ fn' F', fn' ≠ fn → _functions tr !! fn' = Some F' →
                get_blocks F' !! a = None.

(** What the second loop guarantees about a non-zero [jcc_target]: an
    exit was seen, and the target is not the degenerate one (equal to both
    the constant target and the fall-through). *)
Definition scan_ok (ft jct : Z) (st : Z * bool) : Prop :=
  fst st ≠ 0 → snd st = true ∧ ¬ (fst st = jct ∧ ft = fst st).

(** Every block of a function is stored under its own address. *)
Definition keyed (F : Function) : Prop :=
  ∀ k b, get_blocks F !! k = Some b → get_address b = k.

(** What processing blocks may change in a function: nothing but its
    block map, which only grows, and not at the addresses in [S]. *)
Record func_frame (S : gset Z) (F F' : Function) : Prop := MkFuncFrame {
  ff_entry : entry_address F' = entry_address F;
  ff_finalized : finalized F' = finalized F;
  ff_xrefs : xrefs F' = xrefs F ∧ vfunc_xrefs F' = vfunc_xrefs F;
  ff_frozen : ∀ a, a ∈ S → get_blocks F' !! a = get_blocks F !! a;
  ff_grows : ∀ a, is_Some (get_blocks F !! a) → is_Some (get_blocks F' !! a);
  ff_keyed : keyed F → keyed F'
}.

(** What processing blocks for the function registered at [fn] may change
    in the translator. *)
Record frame (fn : Z) (tr tr' : Translator) : Prop := MkFrame {
  fr_seen : _seen_blocks tr ⊆ _seen_blocks tr';
  fr_seen_ir :
    ∀ a, a ∈ _seen_blocks tr' → a ∉ _seen_blocks tr →
         is_Some (_blocks tr' !! a);
  fr_blocks : ∀ a, is_Some (_blocks tr !! a) → is_Some (_blocks tr' !! a);
  fr_other : ∀ k, k ≠ fn → _functions tr' !! k = _functions tr !! k;
  fr_dump :
    non_returning tr' = non_returning tr
    ∧ dump_functions tr' = dump_functions tr
    ∧ _is_finalized tr' = _is_finalized tr;
  fr_fun :
    ∀ F, _functions tr !! fn = Some F →
         ∃ F', _functions tr' !! fn = Some F'
               ∧ func_frame (_seen_blocks tr) F F';
  fr_none : _functions tr !! fn = None → _functions tr' !! fn = None
}.

(** Addresses are 64-bit. *)
Definition addr_range (a : Z) : Prop := 0 ≤ a < 2 ^ 64.

(** The seen addresses that are addresses. *)
Definition seen_in_range (tr : Translator) : gset Z :=
  filter addr_range (_seen_blocks tr).

(** * Concrete inputs *)

(** An empty translator whose dump file lists one non-returning target. *)
Definition tr_empty : Translator :=
  MkTranslator ∅ ∅ ∅ false {[ 0x700000 ]} ∅.

(** A lifter over a small image:
    - at [0x600000] it stops after two instructions, at a call to
      [0x700000] (an under-translation when four are asked for);
    - at [0x600020] it lifts two instructions ending in a jump to
      [0xDEAD0];
    - at [0x500000] it lifts five instructions where the catalog block
      has three;
    - at [0x1000] it lifts one instruction and reports no progress;
    - elsewhere it lifts a one-instruction return. *)
Definition demo_lifter (a : Z) (n : nat) : IRSB * Z :=
  if a =? 0x600000 then
    (MkIRSB [Ist_IMark 0x600000 16; Ist_Other 0; Ist_IMark 0x600010 16] 3
       (Iex_Const (MkIRConst Ico_U64 0x700000)) Ijk_Call, 0x600020)
  else if a =? 0x600020 then
    (MkIRSB [Ist_IMark 0x600020 16; Ist_IMark 0x600030 16] 2
       (Iex_Const (MkIRConst Ico_U64 0xDEAD0)) Ijk_Boring, 0x600040)
  else if a =? 0x500000 then
    (MkIRSB
       [Ist_IMark 0x500000 4; Ist_Other 1; Ist_IMark 0x500004 4;
        Ist_IMark 0x500008 4; Ist_Other 2; Ist_IMark 0x50000c 4;
        Ist_IMark 0x500010 4] 7 (Iex_Other 3) Ijk_Boring, 0x500014)
  else if a =? 0x1000 then
    (MkIRSB [Ist_IMark 0x1000 4] 1 (Iex_Other 0) Ijk_Boring, 0x1000)
  else
    (MkIRSB [Ist_IMark 0 1] 1 (Iex_Other 0) Ijk_Ret, 0).

Definition split_descriptor : BlockDescriptor :=
  MkBlockDescriptor 0x600000 0x600040 4.

Definition over_descriptor : BlockDescriptor :=
  MkBlockDescriptor 0x500000 0x500010 3.

Definition stuck_descriptor : BlockDescriptor :=
  MkBlockDescriptor 0x1000 0x1010 2.

(** A conditional jump: an exit to [0x400300] in the last instruction,
    [next] the fall-through. *)
Definition jcc_block : IRSB :=
  MkIRSB
    [Ist_IMark 0x400200 8; Ist_IMark 0x400208 8;
     Ist_Exit (MkIRConst Ico_U64 0x400300)] 3
    (Iex_Const (MkIRConst Ico_U64 0x400210)) Ijk_Boring.


(** The translator after translating the catalog entry
    [0x600000 ↦ [split_descriptor]]. *)
Definition translated_split : Translator :=
  match
    translate_function false demo_lifter 3 tr_empty
      (0x600000, [split_descriptor])
  with
  | Some (_, tr) => tr
  | None => tr_empty
  end.

(** The function of [translated_split] and its tail block. *)
Definition split_function : Function :=
  match _functions translated_split !! 0x600000 with
  | Some F => F
  | None => Function_new 0
  end.

Definition tail_block : Block :=
  match get_blocks split_function !! 0x600020 with
  | Some b => b
  | None => MkBlock 0 (fst (demo_lifter 0 0)) (MkTerminator TerminatorUnresolved 0 0 false)
  end.

(** A translator whose catalog lists the function at [0x600000], before
    and after that function is looked up on demand, and after the
    catalog is parsed eagerly. *)
Definition tr_catalog : Translator :=
  MkTranslator ∅ ∅ ∅ false {[ 0x700000 ]}
    {[ 0x600000 := [split_descriptor] ]}.

Definition translated_catalog : Translator :=
  match maybe_translate_function false demo_lifter 3 tr_catalog 0x600000 with
  | Some (_, tr) => tr
  | None => tr_catalog
  end.

Definition parsed_catalog : Translator :=
  match parse_known_functions false demo_lifter 3 tr_catalog with
  | Some tr => tr
  | None => tr_catalog
  end.

(** The tail of [split_descriptor] as a catalog block of its own, and
    the translator after a function at [0x600020] made of that block was
    translated: [0x600020] is seen. *)
Definition tail_descriptor : BlockDescriptor :=
  MkBlockDescriptor 0x600020 0x600040 2.

Definition shared_tail : Translator :=
  match
    translate_function false demo_lifter 3 tr_empty
      (0x600020, [tail_descriptor])
  with
  | Some (_, tr) => tr
  | None => tr_empty
  end.

(** [process_block] on [split_descriptor] for a fresh function at
    [0x600000], in that translator. *)
Definition shared_tail_processed : Translator :=
  match
    process_block false demo_lifter 3 (fresh_entry 0x600000 shared_tail)
      0x600000 split_descriptor
  with
  | Some (_, tr) => tr
  | None => tr_empty
  end.

(** A block processor that works as [process_block] does, except that it
    gives up on the block at [0x500000]. *)
Definition flaky_process (tr : Translator) (fn : Z)
    (block : BlockDescriptor) : option (bool * Translator) :=
  if block_start block =? 0x500000 then Some (false, tr)
  else process_block false demo_lifter 3 tr fn block.


(** * Properties *)

(** ** The terminator classifier *)

Section ClassifierFacts.

Variable residual_is_tail : bool.

Lemma scan_exits_ok block_start la ft jct rs :
  ∀ jcc c, scan_ok ft jct (jcc, c) →
    scan_ok ft jct (scan_exits block_start la ft jct rs jcc c).
Proof.
  induction rs as [|s rs IH]; intros jcc c Hok; simpl.
  - destruct (jcc =? 0); exact Hok.
  - destruct (Z.eqb_spec jcc 0) as [->|Hne]; simpl; [|exact Hok].
    destruct s as [a l|dst|p].
    + exact Hok.
    + destruct ((Ico_U64_val dst =? jct) && (ft =? Ico_U64_val dst)) eqn:Hdeg.
      * destruct ((block_start <? 0) && (0 <=? la));
          apply IH; intros Hz; simpl in Hz; congruence.
      * destruct ((block_start <? Ico_U64_val dst) && (Ico_U64_val dst <=? la)).
        -- apply IH; intros Hz; simpl in Hz; congruence.
        -- apply IH. intros _. simpl. split; [reflexivity|].
           intros [H1 H2]. apply andb_false_iff in Hdeg.
           destruct Hdeg as [Hd|Hd]; apply Z.eqb_neq in Hd; congruence.
    + apply IH, Hok.
Qed.

Lemma scan_ok_scan block block_start :
  scan_ok (fall_through0 block) (jmp_call_target block)
    (scan block block_start).
Proof.
  apply scan_exits_ok. intros Hz. simpl in Hz. congruence.
Qed.

(** The guard of the fusion step, read off the three locals it tests. *)
Lemma fusion_fires_spec block block_start :
  fusion_fires block block_start = true ↔
    snd (scan block block_start) = true
    ∧ fall_through0 block ≠ jmp_call_target block
    ∧ fst (scan block block_start) = fall_through0 block.
Proof.
  unfold fusion_fires, is_jmp_call.
  destruct (scan block block_start) as [jcc c]; simpl.
  rewrite !andb_true_iff, negb_true_iff, Z.eqb_neq, Z.eqb_eq. tauto.
Qed.

(** After the fusion step a non-zero [jcc_target] never equals the
    fall-through address. *)
Lemma fused_jcc_target_ne_fall_through block block_start :
  fused_jcc_target block block_start ≠ 0 →
  fused_jcc_target block block_start ≠ fall_through0 block.
Proof.
  unfold fused_jcc_target.
  destruct (fusion_fires block block_start) eqn:Hf.
  - apply fusion_fires_spec in Hf as (_ & Hne & _). congruence.
  - intros Hnz Heq.
    destruct (scan_ok_scan block block_start Hnz) as [Hc Hdeg].
    destruct (Z.eq_dec (fall_through0 block) (jmp_call_target block)) as [E|E].
    + apply Hdeg. split; congruence.
    + assert (fusion_fires block block_start = true); [|congruence].
      apply fusion_fires_spec. auto.
Qed.

(** The classifier yields [TerminatorJcc] only from [Ijk_Boring] with a
    non-zero fused target, which it stores as [target]. *)
Lemma get_terminator_Jcc_inv block block_start :
  type (get_terminator residual_is_tail block block_start) = TerminatorJcc →
  jumpkind block = Ijk_Boring
  ∧ fused_jcc_target block block_start ≠ 0
  ∧ get_terminator residual_is_tail block block_start =
      MkTerminator TerminatorJcc (fused_jcc_target block block_start)
        (fall_through0 block) residual_is_tail.
Proof.
  unfold get_terminator, dispatch.
  destruct (jumpkind block); simpl; try discriminate.
  - destruct (Z.eqb_spec (fused_jcc_target block block_start) 0); simpl.
    + repeat (case_match; simpl); discriminate.
    + auto.
  - case_match; discriminate.
Qed.

(** The classifier never yields [TerminatorNoReturn]. *)
Lemma get_terminator_not_NoReturn block block_start :
  type (get_terminator residual_is_tail block block_start)
    ≠ TerminatorNoReturn.
Proof.
  unfold get_terminator, dispatch.
  repeat (case_match; simpl); discriminate.
Qed.

(** C8: a terminator the classifier types [TerminatorJcc] has a [target]
    different from its [fall_through]; so the two differ unless both are
    0, and no Jcc is produced whose taken target is its fall-through
    successor. *)
Theorem jcc_target_differs_from_fall_through block block_start :
  type (get_terminator residual_is_tail block block_start) = TerminatorJcc →
  target (get_terminator residual_is_tail block block_start)
    ≠ fall_through (get_terminator residual_is_tail block block_start)
  ∧ (target (get_terminator residual_is_tail block block_start)
       = fall_through (get_terminator residual_is_tail block block_start) →
     target (get_terminator residual_is_tail block block_start) = 0
     ∧ fall_through (get_terminator residual_is_tail block block_start) = 0).
Proof.
  intros HJ. apply get_terminator_Jcc_inv in HJ as (_ & Hnz & ->). simpl.
  pose proof (fused_jcc_target_ne_fall_through block block_start Hnz).
  split; [assumption | intros; contradiction].
Qed.


End ClassifierFacts.

(** ** The truncation loop *)

Lemma count_imarks_cons s ss :
  count_imarks (s :: ss) =
    ((if is_IMark s then 1 else 0) + count_imarks ss)%nat.
Proof.
  unfold count_imarks. rewrite filter_cons.
  destruct (is_IMark s); case_decide; simpl; congruence.
Qed.

(** With fewer marks than the counter asks for, the loop runs off the end
    of the statements and changes nothing. *)
Lemma truncate_scan_None ss :
  ∀ i c, (count_imarks ss < c)%nat → truncate_scan ss i c = None.
Proof.
  induction ss as [|s ss IH]; intros i c Hc; simpl; [reflexivity|].
  rewrite count_imarks_cons in Hc.
  destruct s as [a l|dst|p]; simpl in Hc; try (apply IH; lia).
  destruct (Nat.eqb_spec (c - 1) 0); [lia|]. apply IH. lia.
Qed.

(** With at least as many marks as the counter asks for, the loop stops
    at the mark that has exactly [c - 1] marks before it. *)
Lemma truncate_scan_Some ss :
  ∀ i c, (1 ≤ c ≤ count_imarks ss)%nat →
    ∃ j a l,
      truncate_scan ss i c = Some ((i + j)%nat, a)
      ∧ ss !! j = Some (Ist_IMark a l)
      ∧ count_imarks (take j ss) = (c - 1)%nat.
Proof.
  induction ss as [|s ss IH]; intros i c Hc.
  - unfold count_imarks in Hc. simpl in Hc. lia.
  - rewrite count_imarks_cons in Hc. simpl.
    destruct s as [a l|dst|p]; simpl in Hc.
    + destruct (Nat.eqb_spec (c - 1) 0) as [E|E].
      * exists 0%nat, a, l. rewrite Nat.add_0_r, E. auto.
      * destruct (IH (S i) (c - 1)%nat) as (j & a' & l' & H1 & H2 & H3);
          [lia|].
        exists (S j), a', l'. rewrite H1. simpl.
        rewrite count_imarks_cons, H3. simpl.
        split; [f_equal; f_equal; lia|]. split; [assumption|lia].
    + destruct (IH (S i) c) as (j & a' & l' & H1 & H2 & H3); [lia|].
      exists (S j), a', l'. rewrite H1. simpl.
      rewrite count_imarks_cons, H3. simpl.
      split; [f_equal; f_equal; lia|]. auto.
    + destruct (IH (S i) c) as (j & a' & l' & H1 & H2 & H3); [lia|].
      exists (S j), a', l'. rewrite H1. simpl.
      rewrite count_imarks_cons, H3. simpl.
      split; [f_equal; f_equal; lia|]. auto.
Qed.

(** Exactly [count] marks: the super-block is left as it is. *)
Lemma truncate_block_exact count ir :
  head_instructions ir = count → truncate_block count ir = ir.
Proof.
  intros H. unfold truncate_block.
  rewrite truncate_scan_None; [reflexivity|].
  unfold head_instructions in H. lia.
Qed.

(** At least [count + 1] marks: the super-block is cut at the
    [(count + 1)]-th mark and [next] is pointed at that mark's address. *)
Lemma truncate_block_over count ir :
  (count + 1 ≤ head_instructions ir)%nat →
  ∃ i a l,
    (i < stmts_used ir)%nat
    ∧ stmts ir !! i = Some (Ist_IMark a l)
    ∧ count_imarks (take i (stmts ir)) = count
    ∧ truncate_block count ir =
        MkIRSB (stmts ir) i (retarget_next (next ir) a) Ijk_NoDecode.
Proof.
  intros H. unfold truncate_block, head_instructions in *.
  destruct (truncate_scan_Some (active ir) 0 (count + 1))
    as (j & a & l & H1 & H2 & H3); [lia|].
  exists j, a, l. rewrite H1. simpl. unfold active in *.
  apply lookup_take_Some in H2 as [H2 Hlt].
  rewrite take_take in H3.
  replace (j `min` stmts_used ir)%nat with j in H3 by lia.
  repeat split; [lia|assumption|lia].
Qed.

Lemma retarget_next_spec e a :
  ∃ con,
    retarget_next e a = Iex_Const con
    ∧ Ico_U64_val con = a
    ∧ con_tag con =
        match e with Iex_Const c0 => con_tag c0 | Iex_Other _ => Ico_U64 end.
Proof. destruct e as [c0|p]; simpl; eexists; eauto. Qed.

(** ** The block processor *)

Lemma func_frame_refl S F : func_frame S F F.
Proof. split; auto. Qed.

Lemma frame_refl fn tr : frame fn tr tr.
Proof.
  split; auto.
  - intros a H1 H2. contradiction.
  - intros F HF. exists F. split; [assumption | apply func_frame_refl].
Qed.

Lemma keyed_add_block a ir t F : keyed F → keyed (add_block a ir t F).
Proof.
  intros HK k b. unfold add_block. simpl.
  rewrite lookup_insert. case_decide as E.
  - intros [= <-]. simpl. assumption.
  - apply HK.
Qed.

Section BlockFacts.

Variable residual_is_tail : bool.
Variable vex_translate : Z → nat → IRSB * Z.

Local Abbreviation final_terminator :=
  (final_terminator residual_is_tail).
Local Abbreviation finalize_block := (finalize_block residual_is_tail).
Local Abbreviation process_block :=
  (process_block residual_is_tail vex_translate).
Local Abbreviation process_blocks :=
  (process_blocks residual_is_tail vex_translate).
Local Abbreviation translate_function :=
  (translate_function residual_is_tail vex_translate).

Lemma finalize_block_functions tr fn block ir :
  _functions (finalize_block tr fn block ir) =
    alter (add_block (block_start block) ir (final_terminator tr block ir))
      fn (_functions tr).
Proof. reflexivity. Qed.

Lemma finalize_block_blocks tr fn block ir :
  _blocks (finalize_block tr fn block ir) =
    <[block_start block := ir]> (_blocks tr).
Proof. reflexivity. Qed.

(** Marking the start as seen, doing anything that respects [frame], and
    then finalizing the block, respects [frame] with respect to the state
    before: the one block added sits at an address that was not seen. *)
Lemma frame_finalize fn tr tr2 block ir :
  block_start block ∉ _seen_blocks tr →
  frame fn (mark_seen block tr) tr2 →
  frame fn tr (finalize_block tr2 fn block ir).
Proof.
  intros Hnew [Hs Hsi Hb Ho Hd Hf Hn]. simpl in *.
  split; simpl.
  - set_solver.
  - intros a Ha Hna. rewrite lookup_insert_is_Some.
    destruct (decide (block_start block = a)); [auto|].
    right. split; [assumption|]. apply Hsi; set_solver.
  - intros a Ha. rewrite lookup_insert_is_Some.
    destruct (decide (block_start block = a)); auto.
  - intros k Hk. rewrite lookup_alter_ne by congruence. auto.
  - assumption.
  - intros F HF. destruct (Hf F HF) as (F2 & HF2 & [E1 E2 E3 E4 E5 E6]).
    eexists. rewrite lookup_alter_eq, HF2. simpl. split; [reflexivity|].
    split; simpl; auto.
    + intros a Ha. rewrite lookup_insert_ne by set_solver.
      apply E4. set_solver.
    + intros a Ha. rewrite lookup_insert_is_Some.
      destruct (decide (block_start block = a)); auto.
    + intros HK. apply keyed_add_block. auto.
  - intros HF. rewrite lookup_alter_eq, (Hn HF). reflexivity.
Qed.

(** [process_block] never reports failure, and respects [frame]. *)
Lemma process_block_frame fuel :
  ∀ tr fn block r tr',
    process_block fuel tr fn block = Some (r, tr') →
    r = true ∧ frame fn tr tr'.
Proof.
  induction fuel as [|fuel IH]; intros tr fn block r tr' H; [discriminate|].
  simpl in H.
  destruct (block_start block =? block_end block).
  { injection H as <- <-. split; [reflexivity | apply frame_refl]. }
  destruct (decide (block_start block ∈ _seen_blocks tr)) as [Hin|Hnew].
  { injection H as <- <-. split; [reflexivity | apply frame_refl]. }
  destruct (vex_translate (block_start block) (instruction_count block))
    as [translated real_end].
  destruct (head_instructions (deepCopyIRSB_Heap translated)
              <? instruction_count block)%nat.
  - destruct (process_block fuel _ fn _) as [[r2 tr2]|] eqn:Hrec;
      [|discriminate].
    injection H as <- <-. apply IH in Hrec as [-> Hfr].
    split; [reflexivity|]. apply frame_finalize; assumption.
  - injection H as <- <-. split; [reflexivity|].
    apply frame_finalize; [assumption | apply frame_refl].
Qed.

(** *** One call of [process_block], case by case *)

Lemma process_block_skip fuel tr fn block :
  block_start block = block_end block
  ∨ block_start block ∈ _seen_blocks tr →
  process_block (S fuel) tr fn block = Some (true, tr).
Proof.
  intros H. simpl.
  destruct (Z.eqb_spec (block_start block) (block_end block)); [reflexivity|].
  destruct (decide (block_start block ∈ _seen_blocks tr)); [reflexivity|].
  tauto.
Qed.

Lemma process_block_under fuel tr fn block translated real_end :
  block_start block ≠ block_end block →
  block_start block ∉ _seen_blocks tr →
  vex_translate (block_start block) (instruction_count block)
    = (translated, real_end) →
  (head_instructions translated < instruction_count block)%nat →
  process_block (S fuel) tr fn block =
    match
      process_block fuel (mark_seen block tr) fn
        (MkBlockDescriptor real_end (block_end block)
           (instruction_count block - head_instructions translated))
    with
    | None => None
    | Some (r, tr2) =>
        Some (true && r, finalize_block tr2 fn block translated)
    end.
Proof.
  intros Hne Hnew Hvex Hlt. simpl.
  destruct (Z.eqb_spec (block_start block) (block_end block)); [tauto|].
  destruct (decide (block_start block ∈ _seen_blocks tr)); [tauto|].
  rewrite Hvex. unfold deepCopyIRSB_Heap.
  destruct (Nat.ltb_spec (head_instructions translated)
              (instruction_count block)); [reflexivity | lia].
Qed.

Lemma process_block_over fuel tr fn block translated real_end :
  block_start block ≠ block_end block →
  block_start block ∉ _seen_blocks tr →
  vex_translate (block_start block) (instruction_count block)
    = (translated, real_end) →
  (instruction_count block ≤ head_instructions translated)%nat →
  process_block (S fuel) tr fn block =
    Some (true,
          finalize_block (mark_seen block tr) fn block
            (truncate_block (instruction_count block) translated)).
Proof.
  intros Hne Hnew Hvex Hge. simpl.
  destruct (Z.eqb_spec (block_start block) (block_end block)); [tauto|].
  destruct (decide (block_start block ∈ _seen_blocks tr)); [tauto|].
  rewrite Hvex. unfold deepCopyIRSB_Heap.
  destruct (Nat.ltb_spec (head_instructions translated)
              (instruction_count block)); [lia | reflexivity].
Qed.

(** The three ways a call can go. *)
Lemma process_block_cases tr block :
  (block_start block = block_end block
   ∨ block_start block ∈ _seen_blocks tr)
  ∨ ∃ translated real_end,
      (block_start block ≠ block_end block)
      ∧ (block_start block ∉ _seen_blocks tr)
      ∧ (vex_translate (block_start block) (instruction_count block)
           = (translated, real_end))
      ∧ ((head_instructions translated < instruction_count block)%nat
         ∨ (instruction_count block ≤ head_instructions translated)%nat).
Proof.
  destruct (decide (block_start block = block_end block)); [auto|].
  destruct (decide (block_start block ∈ _seen_blocks tr)); [auto|].
  right.
  destruct (vex_translate (block_start block) (instruction_count block))
    as [translated real_end] eqn:Hvex.
  exists translated, real_end. repeat split; auto. lia.
Qed.

(** *** More fuel does not change a result *)

Lemma process_block_mono fuel :
  ∀ tr fn block x,
    process_block fuel tr fn block = Some x →
    process_block (S fuel) tr fn block = Some x.
Proof.
  induction fuel as [|fuel IH]; intros tr fn block x H; [discriminate|].
  destruct (process_block_cases tr block)
    as [Hskip | (ir & re & Hne & Hnew & Hvex & [Hlt|Hge])].
  - rewrite process_block_skip in H by assumption.
    rewrite process_block_skip by assumption. assumption.
  - rewrite (process_block_under fuel _ _ _ ir re) in H by assumption.
    rewrite (process_block_under (S fuel) _ _ _ ir re) by assumption.
    match type of H with
    | context [process_block fuel ?a ?b ?c] =>
        destruct (process_block fuel a b c) as [[r tr2]|] eqn:Hrec;
          [|discriminate]
    end.
    rewrite (IH _ _ _ _ Hrec). assumption.
  - rewrite (process_block_over fuel _ _ _ ir re) in H by assumption.
    rewrite (process_block_over (S fuel) _ _ _ ir re) by assumption.
    assumption.
Qed.

Lemma process_block_mono_le fuel fuel' tr fn block x :
  (fuel ≤ fuel')%nat →
  process_block fuel tr fn block = Some x →
  process_block fuel' tr fn block = Some x.
Proof.
  induction 1 as [|fuel' Hle IH]; [auto|].
  intros H. apply process_block_mono, IH, H.
Qed.

Lemma process_blocks_mono_le fuel fuel' blocks :
  (fuel ≤ fuel')%nat →
  ∀ tr fn x,
    process_blocks fuel tr fn blocks = Some x →
    process_blocks fuel' tr fn blocks = Some x.
Proof.
  intros Hle. induction blocks as [|b rest IH]; intros tr fn x H; simpl in *;
    [assumption|].
  destruct (process_block fuel tr fn b) as [[r tr1]|] eqn:Hb; [|discriminate].
  rewrite (process_block_mono_le _ _ _ _ _ _ Hle Hb).
  destruct r; [apply IH|]; assumption.
Qed.

(** *** Termination

    Every call that does not return at once inserts an address that was
    not in [_seen_blocks]; addresses are 64-bit, so the recursion on split
    descriptors is finite whatever the lifter answers. *)

Lemma size_bounded (X : gset Z) (N : Z) :
  0 ≤ N → (∀ x, x ∈ X → 0 ≤ x < N) → Z.of_nat (size X) ≤ N.
Proof.
  intros HN HX.
  assert (Hsub : X ⊆ list_to_set (seqZ 0 N)).
  { intros x Hx. apply elem_of_list_to_set, elem_of_seqZ.
    specialize (HX x Hx). lia. }
  apply subseteq_size in Hsub.
  rewrite size_list_to_set, length_seqZ in Hsub by apply NoDup_seqZ.
  lia.
Qed.

Lemma seen_in_range_bounded tr : Z.of_nat (size (seen_in_range tr)) ≤ 2 ^ 64.
Proof.
  apply size_bounded; [apply Z.pow_nonneg; lia|].
  intros x Hx. unfold seen_in_range in Hx.
  apply elem_of_filter in Hx as [Hx _]. exact Hx.
Qed.

Lemma seen_in_range_mark_seen block tr :
  addr_range (block_start block) →
  block_start block ∉ _seen_blocks tr →
  size (seen_in_range (mark_seen block tr)) = S (size (seen_in_range tr)).
Proof.
  intros Hr Hnew. unfold seen_in_range, mark_seen. simpl.
  assert (E : filter addr_range ({[block_start block]} ∪ _seen_blocks tr)
              = {[block_start block]} ∪ filter addr_range (_seen_blocks tr)).
  { apply set_eq. intros x.
    rewrite elem_of_filter, !elem_of_union, elem_of_filter,
      elem_of_singleton.
    split; [tauto|]. intros [->|[? ?]]; auto. }
  rewrite E, size_union, size_singleton; [reflexivity|].
  intros x Hx1 Hx2. apply elem_of_singleton in Hx1 as ->.
  apply elem_of_filter in Hx2 as [_ Hx2]. contradiction.
Qed.

Section Termination.

(** [real_end] is a [size_t]. *)
Hypothesis vex_range : ∀ a n, addr_range (snd (vex_translate a n)).

Lemma process_block_terminates_aux n :
  ∀ tr fn block,
    2 ^ 64 ≤ Z.of_nat (size (seen_in_range tr)) + Z.of_nat n →
    addr_range (block_start block) →
    ∃ fuel tr', process_block fuel tr fn block = Some (true, tr').
Proof.
  induction n as [|n IH]; intros tr fn block Hn Hr;
    (destruct (process_block_cases tr block)
      as [Hskip | (ir & re & Hne & Hnew & Hvex & Hcase)];
     [exists 1%nat, tr; apply process_block_skip; assumption|]);
    pose proof (seen_in_range_mark_seen block tr Hr Hnew) as Hsz;
    pose proof (seen_in_range_bounded (mark_seen block tr)) as Hb;
    [lia|].
  destruct Hcase as [Hlt|Hge].
  - destruct (IH (mark_seen block tr) fn
                (MkBlockDescriptor re (block_end block)
                   (instruction_count block - head_instructions ir)))
      as (fuel & tr2 & Hrec).
    + lia.
    + simpl. specialize (vex_range (block_start block)
                           (instruction_count block)).
      rewrite Hvex in vex_range. exact vex_range.
    + exists (S fuel). eexists.
      rewrite (process_block_under _ _ _ _ ir re) by assumption.
      rewrite Hrec. reflexivity.
  - exists 1%nat. eexists.
    apply (process_block_over _ _ _ _ ir re); assumption.
Qed.

(** [process_block] returns, and returns [true], on every descriptor. *)
Lemma process_block_terminates tr fn block :
  addr_range (block_start block) →
  ∃ fuel, ∀ fuel', (fuel ≤ fuel')%nat →
    ∃ tr', process_block fuel' tr fn block = Some (true, tr').
Proof.
  intros Hr.
  destruct (process_block_terminates_aux (Z.to_nat (2 ^ 64)) tr fn block)
    as (fuel & tr' & H); [|assumption|].
  - rewrite Z2Nat.id by (apply Z.pow_nonneg; lia). lia.
  - exists fuel. intros fuel' Hle. exists tr'.
    eapply process_block_mono_le; eassumption.
Qed.

Lemma process_blocks_terminates blocks :
  Forall (λ b, addr_range (block_start b)) blocks →
  ∀ tr fn, ∃ fuel, ∀ fuel', (fuel ≤ fuel')%nat →
    ∃ tr', process_blocks fuel' tr fn blocks = Some (true, tr').
Proof.
  induction 1 as [|b rest Hb Hrest IH]; intros tr fn.
  - exists 0%nat. intros fuel' _. exists tr. reflexivity.
  - destruct (process_block_terminates tr fn b Hb) as (f1 & H1).
    destruct (H1 f1 (Nat.le_refl _)) as (tr1 & Htr1).
    destruct (IH tr1 fn) as (f2 & H2).
    exists (f1 `max` f2)%nat. intros fuel' Hle.
    destruct (H2 fuel') as (tr2 & Htr2); [lia|].
    exists tr2. simpl.
    rewrite (process_block_mono_le f1 fuel' _ _ _ _ ltac:(lia) Htr1).
    exact Htr2.
Qed.

End Termination.

(** *** [finalize_block] *)

Lemma overlay_no_return_spec nr t :
  type t ≠ TerminatorNoReturn →
  (type (overlay_no_return nr t) = TerminatorNoReturn ↔
     (type t = TerminatorCall ∨ type t = TerminatorJump) ∧ target t ∈ nr)
  ∧ (type (overlay_no_return nr t) ≠ TerminatorNoReturn →
     overlay_no_return nr t = t)
  ∧ target (overlay_no_return nr t) = target t
  ∧ fall_through (overlay_no_return nr t) = fall_through t
  ∧ is_tail (overlay_no_return nr t) = is_tail t.
Proof.
  intros Hnr. unfold overlay_no_return.
  destruct (type t) eqn:Ht; try congruence;
    try (destruct (decide (target t ∈ nr)); simpl);
    rewrite ?Ht; repeat split; try tauto; try congruence;
    intuition congruence.
Qed.

Lemma finalize_block_attaches tr fn block ir F :
  _functions tr !! fn = Some F →
  _functions (finalize_block tr fn block ir) !! fn =
    Some (add_block (block_start block) ir (final_terminator tr block ir) F).
Proof.
  intros HF. rewrite finalize_block_functions, lookup_alter_eq, HF.
  reflexivity.
Qed.

(** C6: [finalize_block] attaches to the function the block with the
    classifier's terminator, promoted to [TerminatorNoReturn] exactly
    when its type is Call or Jump and its target is in the non-returning
    set; every other terminator is attached unchanged, and the promotion
    touches nothing but the type.  Hence the target of an attached
    NoReturn terminator is in the non-returning set.  The IR is recorded
    in [_blocks]. *)
Theorem finalize_block_promotes_no_return tr fn block ir F :
  _functions tr !! fn = Some F →
  ∃ t' F',
    _functions (finalize_block tr fn block ir) !! fn = Some F'
    ∧ F' = add_block (block_start block) ir t' F
    ∧ get_blocks F' !! block_start block
        = Some (MkBlock (block_start block) ir t')
    ∧ _blocks (finalize_block tr fn block ir) !! block_start block = Some ir
    ∧ (type t' = TerminatorNoReturn ↔
         (type (get_terminator residual_is_tail ir (block_start block))
            = TerminatorCall
          ∨ type (get_terminator residual_is_tail ir (block_start block))
              = TerminatorJump)
         ∧ target (get_terminator residual_is_tail ir (block_start block))
             ∈ non_returning tr)
    ∧ (type t' ≠ TerminatorNoReturn →
       t' = get_terminator residual_is_tail ir (block_start block))
    ∧ target t'
        = target (get_terminator residual_is_tail ir (block_start block))
    ∧ (type t' = TerminatorNoReturn → target t' ∈ non_returning tr).
Proof.
  intros HF.
  pose proof (overlay_no_return_spec (non_returning tr)
                (get_terminator residual_is_tail ir (block_start block))
                (get_terminator_not_NoReturn _ _ _))
    as (Hiff & Hsame & Htgt & _ & _).
  exists (final_terminator tr block ir). eexists.
  split; [apply finalize_block_attaches, HF|].
  split; [reflexivity|].
  split; [apply lookup_insert_eq|].
  split; [rewrite finalize_block_blocks; apply lookup_insert_eq|].
  unfold final_terminator.
  split; [exact Hiff|]. split; [exact Hsame|]. split; [exact Htgt|].
  intros HNR. rewrite Htgt. apply Hiff, HNR.
Qed.

(** *** Over-translation *)

(** C4: when the lifter produced at least [instruction_count] marks,
    [process_block] succeeds at once and finalizes a super-block [ir']
    that is the lifted one if it has exactly [instruction_count] marks,
    and otherwise is cut at the index [i] of the mark with exactly
    [instruction_count] marks before it: jump kind [Ijk_NoDecode],
    [stmts_used = i], and [next] a constant whose 64-bit value is that
    mark's address, the constant keeping its tag if [next] was a constant
    already and being a fresh [Ico_U64] otherwise. *)
Theorem over_translation_truncates fuel tr fn block translated real_end :
  block_start block ≠ block_end block →
  block_start block ∉ _seen_blocks tr →
  vex_translate (block_start block) (instruction_count block)
    = (translated, real_end) →
  (instruction_count block ≤ head_instructions translated)%nat →
  ∃ ir',
    process_block (S fuel) tr fn block
      = Some (true, finalize_block (mark_seen block tr) fn block ir')
    ∧ _blocks (finalize_block (mark_seen block tr) fn block ir')
        !! block_start block = Some ir'
    ∧ (head_instructions translated = instruction_count block →
       ir' = translated)
    ∧ ((instruction_count block + 1 ≤ head_instructions translated)%nat →
       ∃ i a l con,
         (i < stmts_used translated)%nat
         ∧ stmts translated !! i = Some (Ist_IMark a l)
         ∧ count_imarks (take i (stmts translated)) = instruction_count block
         ∧ jumpkind ir' = Ijk_NoDecode
         ∧ stmts_used ir' = i
         ∧ stmts ir' = stmts translated
         ∧ next ir' = Iex_Const con
         ∧ Ico_U64_val con = a
         ∧ con_tag con =
             match next translated with
             | Iex_Const c0 => con_tag c0
             | Iex_Other _ => Ico_U64
             end).
Proof.
  intros Hne Hnew Hvex Hge.
  exists (truncate_block (instruction_count block) translated).
  split; [apply (process_block_over _ _ _ _ _ real_end); assumption|].
  split; [rewrite finalize_block_blocks; apply lookup_insert_eq|].
  split; [apply truncate_block_exact|].
  intros Hover.
  destruct (truncate_block_over _ _ Hover) as (i & a & l & Hi & Hm & Hc & ->).
  destruct (retarget_next_spec (next translated) a) as (con & Hn & Hv & Ht).
  exists i, a, l, con. simpl. repeat split; assumption.
Qed.

(** *** Under-translation *)

(** C2 (as the code has it): when the lifter under-translates and
    reports [real_end = block_start], the recursive call on the split
    descriptor finds its start in [_seen_blocks] and returns at once; the
    head block is finalized with its IR as lifted, and [process_block]
    returns [true]. *)
Theorem no_progress_split_returns_true fuel tr fn block translated :
  block_start block ≠ block_end block →
  block_start block ∉ _seen_blocks tr →
  vex_translate (block_start block) (instruction_count block)
    = (translated, block_start block) →
  (head_instructions translated < instruction_count block)%nat →
  process_block (S (S fuel)) tr fn block
    = Some (true, finalize_block (mark_seen block tr) fn block translated).
Proof.
  intros Hne Hnew Hvex Hlt.
  rewrite (process_block_under _ _ _ _ translated (block_start block))
    by assumption.
  rewrite process_block_skip; [reflexivity|].
  right. simpl. set_solver.
Qed.

(** A non-empty descriptor whose start was not seen leaves a block at
    its start in the function. *)
Lemma process_block_attaches fuel tr fn block r tr' F :
  process_block fuel tr fn block = Some (r, tr') →
  block_start block ≠ block_end block →
  block_start block ∉ _seen_blocks tr →
  _functions tr !! fn = Some F →
  ∃ F' b,
    _functions tr' !! fn = Some F'
    ∧ get_blocks F' !! block_start block = Some b
    ∧ get_address b = block_start block.
Proof.
  intros H Hne Hnew HF. destruct fuel as [|fuel]; [discriminate|].
  destruct (process_block_cases tr block)
    as [[?|?] | (ir & re & _ & _ & Hvex & [Hlt|Hge])]; try contradiction.
  - rewrite (process_block_under _ _ _ _ ir re) in H by assumption.
    match type of H with
    | context [process_block fuel ?a ?b ?c] =>
        destruct (process_block fuel a b c) as [[r2 tr2]|] eqn:Hrec;
          [|discriminate]
    end.
    injection H as _ <-.
    apply process_block_frame in Hrec as [_ Hfr].
    destruct (fr_fun _ _ _ Hfr F HF) as (F2 & HF2 & _).
    eexists. eexists. split; [apply finalize_block_attaches, HF2|].
    split; [apply lookup_insert_eq | reflexivity].
  - rewrite (process_block_over _ _ _ _ ir re) in H by assumption.
    injection H as _ <-.
    eexists. eexists. split; [apply finalize_block_attaches, HF|].
    split; [apply lookup_insert_eq | reflexivity].
Qed.

(** *** The loop over the catalog blocks *)

Lemma frame_trans fn tr tr1 tr2 :
  frame fn tr tr1 → frame fn tr1 tr2 → frame fn tr tr2.
Proof.
  intros [Hs Hsi Hb Ho (Hd1 & Hd2 & Hd3) Hf Hn]
         [Hs' Hsi' Hb' Ho' (Hd1' & Hd2' & Hd3') Hf' Hn'].
  split.
  - set_solver.
  - intros a Ha Hna. destruct (decide (a ∈ _seen_blocks tr1)); auto.
  - auto.
  - intros k Hk. rewrite Ho', Ho; auto.
  - repeat split; congruence.
  - intros F HF. destruct (Hf F HF) as (F1 & HF1 & [A1 A2 [A3 A3'] A4 A5 A6]).
    destruct (Hf' F1 HF1) as (F2 & HF2 & [B1 B2 [B3 B3'] B4 B5 B6]).
    exists F2. split; [assumption|].
    split; try congruence; auto.
    + split; congruence.
    + intros a Ha. rewrite B4, A4; auto.
  - auto.
Qed.

Lemma process_blocks_frame fuel blocks :
  ∀ tr fn r tr',
    process_blocks fuel tr fn blocks = Some (r, tr') →
    r = true ∧ frame fn tr tr'.
Proof.
  induction blocks as [|b rest IH]; intros tr fn r tr' H; simpl in H.
  - injection H as <- <-. split; [reflexivity | apply frame_refl].
  - destruct (process_block fuel tr fn b) as [[r1 tr1]|] eqn:Hb;
      [|discriminate].
    apply process_block_frame in Hb as [-> Hfr1].
    apply IH in H as [-> Hfr2].
    split; [reflexivity | eapply frame_trans; eassumption].
Qed.

(** *** The tail-jump detector *)

Lemma is_target_exists (blocks : gmap Z Block) (tgt : Z) :
  existsb (is_target tgt) (snd <$> map_to_list blocks) = true ↔
    ∃ k b, blocks !! k = Some b ∧ get_address b = tgt.
Proof.
  rewrite existsb_exists. split.
  - intros (b & Hin & Hb). apply list_elem_of_In, list_elem_of_fmap in Hin.
    destruct Hin as ([k b'] & -> & Hin). apply elem_of_map_to_list in Hin.
    exists k, b'. split; [assumption|].
    unfold is_target in Hb. apply bool_decide_eq_true in Hb. exact Hb.
  - intros (k & b & Hk & Hb). exists b. split.
    + apply list_elem_of_In, list_elem_of_fmap. exists (k, b).
      split; [reflexivity|]. apply elem_of_map_to_list. exact Hk.
    + unfold is_target. apply bool_decide_eq_true. exact Hb.
Qed.

Lemma detect_tail_spec (blocks : gmap Z Block) (b : Block) :
  get_address (detect_tail blocks b) = get_address b
  ∧ get_irsb (detect_tail blocks b) = get_irsb b
  ∧ type (block_terminator (detect_tail blocks b))
      = type (block_terminator b)
  ∧ target (block_terminator (detect_tail blocks b))
      = target (block_terminator b)
  ∧ fall_through (block_terminator (detect_tail blocks b))
      = fall_through (block_terminator b)
  ∧ (is_tail (block_terminator (detect_tail blocks b)) = true ↔
       type (block_terminator b) = TerminatorJump
       ∧ ¬ ∃ k b', blocks !! k = Some b'
                   ∧ get_address b' = target (block_terminator b)).
Proof.
  unfold detect_tail. simpl.
  destruct (type (block_terminator b)) eqn:Ht; simpl;
    (split; [reflexivity|]); (split; [reflexivity|]);
    (split; [exact Ht|]); (split; [reflexivity|]); (split; [reflexivity|]);
    try (split; [discriminate | intros [? _]; discriminate]).
  rewrite negb_true_iff. split.
  - intros Htl. split; [reflexivity|]. intros Hex.
    apply is_target_exists in Hex. congruence.
  - intros [_ Hno].
    destruct (existsb _ _) eqn:Hex; [|reflexivity].
    exfalso. apply Hno, is_target_exists, Hex.
Qed.

Lemma detect_tail_jumps_lookup F k b' :
  get_blocks (detect_tail_jumps F) !! k = Some b' →
  ∃ b, get_blocks F !! k = Some b ∧ b' = detect_tail (get_blocks F) b.
Proof.
  unfold detect_tail_jumps. simpl. rewrite lookup_fmap.
  destruct (get_blocks F !! k) as [b|]; simpl; [|discriminate].
  intros [= <-]. eauto.
Qed.

Lemma detect_tail_jumps_addresses F tgt :
  (∃ k b, get_blocks (detect_tail_jumps F) !! k = Some b
          ∧ get_address b = tgt)
  ↔ (∃ k b, get_blocks F !! k = Some b ∧ get_address b = tgt).
Proof.
  split.
  - intros (k & b' & Hk & Hb).
    apply detect_tail_jumps_lookup in Hk as (b & Hk & ->).
    exists k, b. split; [assumption|].
    rewrite <- Hb. symmetry. apply detect_tail_spec.
  - intros (k & b & Hk & Hb).
    exists k, (detect_tail (get_blocks F) b). split.
    + unfold detect_tail_jumps. simpl. rewrite lookup_fmap, Hk. reflexivity.
    + rewrite <- Hb. apply detect_tail_spec.
Qed.

Lemma keyed_detect_tail_jumps F : keyed F → keyed (detect_tail_jumps F).
Proof.
  intros HK k b' Hk. apply detect_tail_jumps_lookup in Hk as (b & Hk & ->).
  rewrite <- (HK k b Hk). apply detect_tail_spec.
Qed.

(** The tail flags of a function the detector has visited. *)
Lemma detect_tail_jumps_spec F k b :
  get_blocks (detect_tail_jumps F) !! k = Some b →
  (is_tail (block_terminator b) = true ↔
     type (block_terminator b) = TerminatorJump
     ∧ ¬ ∃ k' b', get_blocks (detect_tail_jumps F) !! k' = Some b'
                  ∧ get_address b' = target (block_terminator b)).
Proof.
  intros Hk. apply detect_tail_jumps_lookup in Hk as (b0 & Hk & ->).
  destruct (detect_tail_spec (get_blocks F) b0)
    as (_ & _ & Hty & Htg & _ & Hiff).
  rewrite Hiff, Hty, Htg, detect_tail_jumps_addresses. reflexivity.
Qed.

(** *** The function translator *)

Lemma keyed_Function_new address : keyed (Function_new address).
Proof. intros k b H. simpl in H. rewrite lookup_empty in H. discriminate. Qed.

(** Whenever [translate_function] returns, the block loop succeeded on
    every block, the handle is the entry address, and the registry holds
    the finalized function with its tail jumps detected. *)
Lemma translate_function_outcome fuel tr address blocks res tr' :
  translate_function fuel tr (address, blocks) = Some (res, tr') →
  ∃ tr1 F1,
    process_blocks fuel (fresh_entry address tr) address blocks
      = Some (true, tr1)
    ∧ res = Some address
    ∧ _functions tr1 !! address = Some F1
    ∧ func_frame (_seen_blocks tr) (Function_new address) F1
    ∧ frame address (fresh_entry address tr) tr1
    ∧ _functions tr' !! address
        = Some (Function_finalize (detect_tail_jumps F1))
    ∧ _seen_blocks tr' = _seen_blocks tr1
    ∧ _blocks tr' = _blocks tr1.
Proof.
  unfold translate_function. simpl. fold (fresh_entry address tr).
  destruct (process_blocks fuel (fresh_entry address tr) address blocks)
    as [[r tr1]|] eqn:Hloop; [|discriminate].
  destruct (process_blocks_frame _ _ _ _ _ _ Hloop) as [-> Hfr].
  intros [= <- <-].
  destruct (fr_fun _ _ _ Hfr (Function_new address)) as (F1 & HF1 & Hff).
  { simpl. apply lookup_insert_eq. }
  exists tr1, F1. simpl. rewrite lookup_alter_eq, HF1. simpl.
  split; [reflexivity|]. split; [reflexivity|]. split; [reflexivity|].
  split; [exact Hff|]. split; [exact Hfr|]. auto.
Qed.

(** C3: in the function a successful [translate_function] leaves in the
    registry, a block's [is_tail] is true if and only if its terminator
    is a Jump whose target is not the address of any block of the
    function; in particular [is_tail] is false for every other type.
    Every block is stored under its own address, so the condition on the
    target says that the function has no block at that key. *)
Theorem tail_flag_iff_jump_leaves_function fuel tr current h tr' :
  translate_function fuel tr current = Some (Some h, tr') →
  ∃ F,
    _functions tr' !! h = Some F
    ∧ finalized F = true
    ∧ keyed F
    ∧ ∀ k b, get_blocks F !! k = Some b →
        (is_tail (block_terminator b) = true ↔
           type (block_terminator b) = TerminatorJump
           ∧ ¬ ∃ k' b', get_blocks F !! k' = Some b'
                        ∧ get_address b' = target (block_terminator b))
        ∧ (is_tail (block_terminator b) = true ↔
             type (block_terminator b) = TerminatorJump
             ∧ get_blocks F !! target (block_terminator b) = None)
        ∧ (type (block_terminator b) ≠ TerminatorJump →
           is_tail (block_terminator b) = false).
Proof.
  destruct current as [address blocks]. intros H.
  apply translate_function_outcome in H
    as (tr1 & F1 & _ & [= <-] & _ & Hff & _ & HF & _).
  exists (Function_finalize (detect_tail_jumps F1)).
  assert (HK : keyed (detect_tail_jumps F1)).
  { apply keyed_detect_tail_jumps, (ff_keyed _ _ _ Hff),
      keyed_Function_new. }
  split; [assumption|]. split; [reflexivity|]. split; [exact HK|].
  intros k b.
  change (get_blocks (Function_finalize (detect_tail_jumps F1)))
    with (get_blocks (detect_tail_jumps F1)).
  intros Hk.
  pose proof (detect_tail_jumps_spec F1 k b Hk) as Hiff.
  split; [exact Hiff|]. split.
  - rewrite Hiff. split; intros [Hty Hno]; (split; [exact Hty|]).
    + destruct (get_blocks (detect_tail_jumps F1)
                  !! target (block_terminator b)) as [b'|] eqn:E;
        [|reflexivity].
      exfalso. apply Hno. exists (target (block_terminator b)), b'.
      split; [exact E | apply (HK _ _ E)].
    + intros (k' & b' & Hk' & Ha). rewrite <- (HK _ _ Hk') in Hk'.
      congruence.
  - intros Hty. destruct (is_tail (block_terminator b)) eqn:E;
      [|reflexivity].
    exfalso. apply Hty, Hiff. reflexivity.
Qed.

(** *** The loop and the function translator over any block processor *)

(** The loop answers [false] exactly when one invocation did, all the
    invocations before it having answered [true]. *)
Lemma process_blocks_with_false process blocks :
  ∀ tr fn tr1,
    process_blocks_with process tr fn blocks = Some (false, tr1) →
    ∃ done b rest t0,
      blocks = done ++ b :: rest
      ∧ process_blocks_with process tr fn done = Some (true, t0)
      ∧ process t0 fn b = Some (false, tr1).
Proof.
  induction blocks as [|b0 rest IH]; intros tr fn tr1 H; simpl in H;
    [discriminate|].
  destruct (process tr fn b0) as [[[] t]|] eqn:Hb; [| |discriminate].
  - destruct (IH _ _ _ H) as (done & b & rest' & t0 & -> & H1 & H2).
    exists (b0 :: done), b, rest', t0. simpl. rewrite Hb. auto.
  - injection H as <-. exists [], b0, rest, tr. auto.
Qed.


(** The loop answers [true] only if every invocation did. *)
Lemma process_blocks_with_true process blocks :
  ∀ tr fn tr1,
    process_blocks_with process tr fn blocks = Some (true, tr1) →
    ∀ done b rest,
      blocks = done ++ b :: rest →
      ∃ t0 t0',
        process_blocks_with process tr fn done = Some (true, t0)
        ∧ process t0 fn b = Some (true, t0').
Proof.
  induction blocks as [|b0 blocks IH]; intros tr fn tr1 H done b rest E.
  - destruct done; discriminate.
  - simpl in H.
    destruct (process tr fn b0) as [[[] t]|] eqn:Hb; try discriminate.
    destruct done as [|d done]; simpl in E; injection E as <- ->.
    + exists tr, t. auto.
    + destruct (IH _ _ _ H done b rest eq_refl) as (t0 & t0' & H1 & H2).
      exists t0, t0'. simpl. rewrite Hb. auto.
Qed.


(** The program's loop and function translator are the ones over
    [process_block]. *)
Lemma process_blocks_as_with fuel blocks :
  ∀ tr fn,
    process_blocks fuel tr fn blocks
      = process_blocks_with (process_block fuel) tr fn blocks.
Proof.
  induction blocks as [|b0 blocks IH]; intros tr fn; simpl; [reflexivity|].
  destruct (process_block fuel tr fn b0) as [[[] t]|]; auto.
Qed.

Lemma translate_function_as_with fuel tr current :
  translate_function fuel tr current
    = translate_function_with (process_block fuel) tr current.
Proof.
  unfold translate_function, translate_function_with.
  rewrite process_blocks_as_with. reflexivity.
Qed.

(** The two ways [translate_function] can return, over any processor. *)
Lemma translate_function_with_outcome process tr address blocks res tr' :
  translate_function_with process tr (address, blocks) = Some (res, tr') →
  (res = Some address
   ∧ ∃ tr1,
       process_blocks_with process (fresh_entry address tr) address blocks
         = Some (true, tr1)
       ∧ (∀ done b rest,
            blocks = done ++ b :: rest →
            ∃ t0 t0',
              process_blocks_with process (fresh_entry address tr) address
                done = Some (true, t0)
              ∧ process t0 address b = Some (true, t0'))
       ∧ tr' = set_functions
                 (alter (λ f, Function_finalize (detect_tail_jumps f))
                    address (_functions tr1)) tr1)
  ∨ (res = None
     ∧ ∃ done b rest t0 tr1,
         blocks = done ++ b :: rest
         ∧ process_blocks_with process (fresh_entry address tr) address done
             = Some (true, t0)
         ∧ process t0 address b = Some (false, tr1)
         ∧ tr' = discard_function address tr1
         ∧ _functions tr' !! address = None).
Proof.
  unfold translate_function_with. cbn [fst snd].
  destruct (process_blocks_with process (fresh_entry address tr) address
              blocks) as [[[] tr1]|] eqn:Hloop; [| |discriminate];
    intros [= <- <-].
  - left. split; [reflexivity|]. exists tr1. split; [reflexivity|].
    split; [|reflexivity].
    intros done b rest E. eapply process_blocks_with_true; eassumption.
  - right. split; [reflexivity|].
    destruct (process_blocks_with_false _ _ _ _ _ Hloop)
      as (done & b & rest & t0 & E & H1 & H2).
    exists done, b, rest, t0, tr1.
    split; [exact E|]. split; [exact H1|]. split; [exact H2|].
    split; [reflexivity|]. apply lookup_delete_eq.
Qed.


Section Totality.

Hypothesis vex_range : ∀ a n, addr_range (snd (vex_translate a n)).

(** C5 (as the code has it): when the lifter under-translates,
    [process_block] first processes the descriptor [(real_end, block_end,
    instruction_count - head_instructions)] in the state where
    [block_start] is seen, then finalizes the head block with its IR as
    lifted, and returns the conjunction of [true] and the result of the
    recursive call.  The recursive call returns, so the whole call does;
    afterwards the function holds the head block at [block_start].  It
    holds the tail block at [real_end] when the tail descriptor is
    non-empty and its start was not seen; when the tail descriptor is
    empty or its start is seen, the recursive call changes nothing and
    the function is the one before with the head block added. *)
Theorem under_translation_splits tr fn block translated real_end F :
  block_start block ≠ block_end block →
  block_start block ∉ _seen_blocks tr →
  vex_translate (block_start block) (instruction_count block)
    = (translated, real_end) →
  (head_instructions translated < instruction_count block)%nat →
  _functions tr !! fn = Some F →
  (∀ fuel r tr2,
     process_block fuel (mark_seen block tr) fn
       (MkBlockDescriptor real_end (block_end block)
          (instruction_count block - head_instructions translated))
       = Some (r, tr2) →
     process_block (S fuel) tr fn block
       = Some (true && r, finalize_block tr2 fn block translated))
  ∧ ∃ fuel tr2 F',
      process_block fuel (mark_seen block tr) fn
        (MkBlockDescriptor real_end (block_end block)
           (instruction_count block - head_instructions translated))
        = Some (true, tr2)
      ∧ (∀ fuel', (fuel ≤ fuel')%nat →
           process_block (S fuel') tr fn block
             = Some (true, finalize_block tr2 fn block translated))
      ∧ _functions (finalize_block tr2 fn block translated) !! fn = Some F'
      ∧ get_blocks F' !! block_start block
          = Some (MkBlock (block_start block) translated
                    (final_terminator tr2 block translated))
      ∧ _blocks (finalize_block tr2 fn block translated)
          !! block_start block = Some translated
      ∧ (real_end ≠ block_end block →
         real_end ≠ block_start block →
         real_end ∉ _seen_blocks tr →
         ∃ b, get_blocks F' !! real_end = Some b
              ∧ get_address b = real_end)
      ∧ (real_end = block_end block
         ∨ real_end = block_start block
         ∨ real_end ∈ _seen_blocks tr →
         tr2 = mark_seen block tr
         ∧ get_blocks F'
             = <[block_start block :=
                   MkBlock (block_start block) translated
                     (final_terminator tr2 block translated)]>
                 (get_blocks F)).
Proof.
  intros Hne Hnew Hvex Hlt HF. split.
  - intros fuel r tr2 Hrec.
    rewrite (process_block_under _ _ _ _ translated real_end) by assumption.
    rewrite Hrec. reflexivity.
  - set (split := MkBlockDescriptor real_end (block_end block)
                    (instruction_count block - head_instructions translated)).
    destruct (process_block_terminates vex_range (mark_seen block tr) fn split)
      as (fuel & Hfuel).
    { simpl. specialize (vex_range (block_start block)
                           (instruction_count block)).
      rewrite Hvex in vex_range. exact vex_range. }
    destruct (Hfuel fuel (Nat.le_refl _)) as (tr2 & Hrec).
    destruct (process_block_frame _ _ _ _ _ _ Hrec) as [_ Hfr].
    destruct (fr_fun _ _ _ Hfr F HF) as (F2 & HF2 & Hff).
    exists fuel, tr2. eexists.
    split; [exact Hrec|]. split.
    { intros fuel' Hle.
      rewrite (process_block_under _ _ _ _ translated real_end)
        by assumption.
      fold split.
      rewrite (process_block_mono_le _ _ _ _ _ _ Hle Hrec). reflexivity. }
    split; [apply finalize_block_attaches, HF2|].
    split; [apply lookup_insert_eq|].
    split; [rewrite finalize_block_blocks; apply lookup_insert_eq|].
    split.
    + intros Hne2 Hne3 Hnew2.
      destruct (process_block_attaches _ _ _ _ _ _ F Hrec)
        as (F2' & b & E1 & E2 & E3);
        [assumption | simpl; set_solver | exact HF |].
      rewrite HF2 in E1. injection E1 as <-.
      exists b. split; [|exact E3]. simpl.
      rewrite lookup_insert_ne by congruence. exact E2.
    + intros Hskip.
      assert (Hs : process_block (S fuel) (mark_seen block tr) fn split
                   = Some (true, mark_seen block tr)).
      { apply process_block_skip. simpl.
        destruct Hskip as [->|[->|Hin]]; [left; reflexivity | |];
          right; set_solver. }
      apply process_block_mono in Hrec. rewrite Hs in Hrec.
      injection Hrec as <-. split; [reflexivity|].
      simpl in HF2. rewrite HF in HF2. injection HF2 as <-. reflexivity.
Qed.

(** C7: [translate_function] is the function translator over
    [process_block], and the function translator over any block
    processor returns in one of two ways: with the entry address as
    handle, every invocation of the processor having answered [true] on
    the catalog blocks in order, the registered function then getting
    its tail jumps detected and being finalized; or with a null handle,
    some invocation having answered [false] after the ones before it
    answered [true], the function being erased from the registry.  With
    [process_block] it returns on every catalog entry, and the registry
    then holds at the entry address the loop's function with its tail
    jumps detected, finalized. *)
Theorem translate_function_all_or_nothing tr address blocks :
  Forall (λ b, addr_range (block_start b)) blocks →
  (∀ fuel,
     translate_function fuel tr (address, blocks)
       = translate_function_with (process_block fuel) tr (address, blocks))
  ∧ (∀ process res tr',
       translate_function_with process tr (address, blocks)
         = Some (res, tr') →
       (res = Some address
        ∧ ∃ tr1,
            process_blocks_with process (fresh_entry address tr) address
              blocks = Some (true, tr1)
            ∧ (∀ done b rest,
                 blocks = done ++ b :: rest →
                 ∃ t0 t0',
                   process_blocks_with process (fresh_entry address tr)
                     address done = Some (true, t0)
                   ∧ process t0 address b = Some (true, t0'))
            ∧ tr' = set_functions
                      (alter (λ f, Function_finalize (detect_tail_jumps f))
                         address (_functions tr1)) tr1)
       ∨ (res = None
          ∧ ∃ done b rest t0 tr1,
              blocks = done ++ b :: rest
              ∧ process_blocks_with process (fresh_entry address tr) address
                  done = Some (true, t0)
              ∧ process t0 address b = Some (false, tr1)
              ∧ tr' = discard_function address tr1
              ∧ _functions tr' !! address = None))
  ∧ (∀ fuel res tr',
       translate_function fuel tr (address, blocks) = Some (res, tr') →
       (res = Some address
        ∧ ∃ tr1 F1,
            process_blocks fuel (fresh_entry address tr) address blocks
              = Some (true, tr1)
            ∧ _functions tr1 !! address = Some F1
            ∧ entry_address F1 = address
            ∧ _functions tr' !! address
                = Some (Function_finalize (detect_tail_jumps F1))
            ∧ finalized (Function_finalize (detect_tail_jumps F1)) = true)
       ∨ (res = None
          ∧ ∃ done b rest t0 tr1,
              blocks = done ++ b :: rest
              ∧ process_blocks fuel (fresh_entry address tr) address done
                  = Some (true, t0)
              ∧ process_block fuel t0 address b = Some (false, tr1)
              ∧ tr' = discard_function address tr1
              ∧ _functions tr' !! address = None))
  ∧ ∃ fuel, ∀ fuel', (fuel ≤ fuel')%nat →
      ∃ res tr', translate_function fuel' tr (address, blocks)
                   = Some (res, tr').
Proof.
  intros Hr.
  split; [intros fuel; apply translate_function_as_with|].
  split; [intros process res tr'; apply translate_function_with_outcome|].
  split.
  - intros fuel res tr' Htf.
    pose proof Htf as Hw. rewrite translate_function_as_with in Hw.
    apply translate_function_with_outcome in Hw
      as [(-> & _) | (-> & done & b & rest & t0 & tr1 & E & H1 & H2 & E' & Hn)].
    + left. split; [reflexivity|].
      apply translate_function_outcome in Htf
        as (tr1 & F1 & Hloop & _ & HF1 & Hff & _ & HF & _).
      exists tr1, F1. split; [exact Hloop|]. split; [exact HF1|].
      split; [apply (ff_entry _ _ _ Hff)|]. split; [exact HF | reflexivity].
    + right. split; [reflexivity|]. exists done, b, rest, t0, tr1.
      rewrite process_blocks_as_with. auto.
  - destruct (process_blocks_terminates vex_range blocks Hr
                (fresh_entry address tr) address) as (fuel & Hfuel).
    exists fuel. intros fuel' Hle. destruct (Hfuel fuel' Hle) as (tr1 & Hloop).
    unfold translate_function. cbn [fst snd]. rewrite Hloop. eauto.
Qed.

End Totality.

End BlockFacts.

(** ** The lock discipline of the accessors *)

Section AccessorFacts.

Variable residual_is_tail : bool.
Variable vex_translate : Z → nat → IRSB * Z.
Variable contains_address : Function → Z → bool.

(** C9: [get_containing_function] scans [_functions] without taking the
    mutex, and [finalize] writes [_is_finalized] without taking it: their
    registry accesses are not serialized, while the other accessors hold
    the mutex around theirs. *)
Theorem get_containing_function_takes_no_lock tr addr fuel xref :
  fst (get_containing_function contains_address tr addr) = [EvRegistry]
  ∧ serialized false (fst (get_containing_function contains_address tr addr))
      = false
  ∧ serialized false (fst (finalize tr)) = false
  ∧ serialized false
      (fst (get_function residual_is_tail vex_translate fuel tr addr)) = true
  ∧ serialized false (fst (cget_function tr addr)) = true
  ∧ serialized false
      (fst (maybe_get_function residual_is_tail vex_translate fuel tr addr))
      = true
  ∧ serialized false (fst (get_functions_mutable tr)) = true
  ∧ serialized false (fst (add_function_xref tr addr xref)) = true
  ∧ serialized false (fst (add_function_vfunc_xref tr addr xref)) = true.
Proof. repeat split. Qed.

End AccessorFacts.

(** * Concrete runs *)

(** The concrete lifter reports 64-bit addresses. *)
Lemma demo_lifter_range a n : addr_range (snd (demo_lifter a n)).
Proof.
  unfold demo_lifter, addr_range.
  repeat (case_match; simpl); lia.
Defined.

(** ** The classifier on the concrete blocks *)

Lemma jcc_target_differs_witness :
  type (get_terminator false jcc_block 0x400200) = TerminatorJcc
  ∧ target (get_terminator false jcc_block 0x400200)
      ≠ fall_through (get_terminator false jcc_block 0x400200).
Proof.
  split; [reflexivity|].
  apply (jcc_target_differs_from_fall_through false jcc_block 0x400200).
  reflexivity.
Defined.



(** ** The block processor on the concrete lifter *)

(** C2, as stated, fails on [stuck_descriptor]: the lifter lifts one
    instruction of two and reports [real_end = block_start], and
    [process_block] returns [true]. *)
Lemma no_progress_claim_counterexample :
  block_start stuck_descriptor ≠ block_end stuck_descriptor
  ∧ (block_start stuck_descriptor ∉ _seen_blocks tr_empty)
  ∧ (head_instructions (fst (demo_lifter 0x1000 2))
       < instruction_count stuck_descriptor)%nat
  ∧ snd (demo_lifter 0x1000 2) = block_start stuck_descriptor
  ∧ fst <$> process_block false demo_lifter 2 tr_empty 0x1000
              stuck_descriptor = Some true
  ∧ fst <$> process_block false demo_lifter 2 tr_empty 0x1000
              stuck_descriptor ≠ Some false.
Proof.
  split; [discriminate|]. split; [set_solver|].
  split; [vm_compute; lia|]. split; [reflexivity|].
  split; [vm_compute; reflexivity|]. vm_compute. discriminate.
Qed.

Lemma no_progress_split_witness :
  process_block false demo_lifter 2 tr_empty 0x1000 stuck_descriptor
    = Some (true,
            finalize_block false (mark_seen stuck_descriptor tr_empty)
              0x1000 stuck_descriptor (fst (demo_lifter 0x1000 2))).
Proof.
  apply (no_progress_split_returns_true false demo_lifter 0 tr_empty 0x1000
           stuck_descriptor).
  - discriminate.
  - set_solver.
  - reflexivity.
  - vm_compute. lia.
Defined.

Lemma over_translation_witness :
  ∃ ir',
    process_block false demo_lifter 1 tr_empty 0x500000 over_descriptor
      = Some (true,
              finalize_block false (mark_seen over_descriptor tr_empty)
                0x500000 over_descriptor ir')
    ∧ jumpkind ir' = Ijk_NoDecode
    ∧ ∃ i a l con,
        stmts (fst (demo_lifter 0x500000 3)) !! i = Some (Ist_IMark a l)
        ∧ count_imarks (take i (stmts (fst (demo_lifter 0x500000 3)))) = 3%nat
        ∧ stmts_used ir' = i
        ∧ next ir' = Iex_Const con
        ∧ Ico_U64_val con = a.
Proof.
  destruct (over_translation_truncates false demo_lifter 0 tr_empty 0x500000
              over_descriptor (fst (demo_lifter 0x500000 3)) 0x500014)
    as (ir' & H1 & _ & _ & H4).
  - discriminate.
  - set_solver.
  - reflexivity.
  - vm_compute. lia.
  - destruct H4 as (i & a & l & con & _ & E1 & E2 & E3 & E4 & _ & E5 & E6 & _).
    + vm_compute. lia.
    + exists ir'. split; [exact H1|]. split; [exact E3|].
      exists i, a, l, con. auto.
Defined.

Lemma under_translation_witness :
  ∃ fuel tr2 F',
    process_block false demo_lifter fuel
      (mark_seen split_descriptor (fresh_entry 0x600000 tr_empty)) 0x600000
      (MkBlockDescriptor 0x600020 0x600040 2) = Some (true, tr2)
    ∧ get_blocks F' !! 0x600000
        = Some (MkBlock 0x600000 (fst (demo_lifter 0x600000 4))
                  (final_terminator false tr2 split_descriptor
                     (fst (demo_lifter 0x600000 4))))
    ∧ ∃ b, get_blocks F' !! 0x600020 = Some b ∧ get_address b = 0x600020.
Proof.
  destruct (under_translation_splits false demo_lifter demo_lifter_range
              (fresh_entry 0x600000 tr_empty) 0x600000 split_descriptor
              (fst (demo_lifter 0x600000 4)) 0x600020
              (Function_new 0x600000))
    as [_ (fuel & tr2 & F' & H1 & _ & _ & H4 & _ & H6 & _)].
  - discriminate.
  - set_solver.
  - reflexivity.
  - vm_compute. lia.
  - reflexivity.
  - exists fuel, tr2, F'. split; [exact H1|]. split; [exact H4|].
    apply H6; [discriminate | discriminate | set_solver].
Defined.

(** C5, as stated, fails when the tail is shared: in [shared_tail] the
    address [0x600020] is seen.  [process_block] on [split_descriptor]
    for a fresh function at [0x600000] under-translates (two marks of
    four, [real_end = 0x600020]), returns [true], and leaves the function
    with the head block at [0x600000] and no block at [0x600020]. *)
Lemma under_translation_claim_counterexample :
  block_start split_descriptor ≠ block_end split_descriptor
  ∧ (block_start split_descriptor
       ∉ _seen_blocks (fresh_entry 0x600000 shared_tail))
  ∧ (head_instructions (fst (demo_lifter 0x600000 4))
       < instruction_count split_descriptor)%nat
  ∧ snd (demo_lifter 0x600000 4) = 0x600020
  ∧ process_block false demo_lifter 3 (fresh_entry 0x600000 shared_tail)
      0x600000 split_descriptor = Some (true, shared_tail_processed)
  ∧ (∃ F, _functions shared_tail_processed !! 0x600000 = Some F
          ∧ is_Some (get_blocks F !! 0x600000)
          ∧ get_blocks F !! 0x600020 = None).
Proof.
  split; [discriminate|].
  split; [vm_compute; discriminate|].
  split; [vm_compute; lia|]. split; [reflexivity|].
  split; [vm_compute; reflexivity|].
  destruct (_functions shared_tail_processed !! 0x600000) as [F|] eqn:HF;
    [|vm_compute in HF; discriminate HF].
  exists F. split; [reflexivity|].
  vm_compute in HF. injection HF as <-.
  split; [vm_compute; eauto | vm_compute; reflexivity].
Qed.

Lemma finalize_block_no_return_witness :
  ∃ t' F',
    _functions
      (finalize_block false (fresh_entry 0x600000 tr_empty) 0x600000
         split_descriptor (fst (demo_lifter 0x600000 4))) !! 0x600000
      = Some F'
    ∧ get_blocks F' !! 0x600000
        = Some (MkBlock 0x600000 (fst (demo_lifter 0x600000 4)) t')
    ∧ type t' = TerminatorNoReturn
    ∧ target t' = 0x700000.
Proof.
  destruct (finalize_block_promotes_no_return false
              (fresh_entry 0x600000 tr_empty) 0x600000 split_descriptor
              (fst (demo_lifter 0x600000 4)) (Function_new 0x600000))
    as (t' & F' & H1 & _ & H3 & _ & H5 & _ & H7 & _).
  - reflexivity.
  - exists t', F'. split; [exact H1|]. split; [exact H3|].
    split; [|exact H7].
    apply H5. split; [left; reflexivity|]. vm_compute. reflexivity.
Defined.

(** ** The function translator on the concrete lifter *)

Lemma tail_flag_witness :
  ∃ F,
    _functions translated_split !! 0x600000 = Some F
    ∧ finalized F = true
    ∧ ∀ k b, get_blocks F !! k = Some b →
        (is_tail (block_terminator b) = true ↔
           type (block_terminator b) = TerminatorJump
           ∧ get_blocks F !! target (block_terminator b) = None).
Proof.
  destruct (tail_flag_iff_jump_leaves_function false demo_lifter 3 tr_empty
              (0x600000, [split_descriptor]) 0x600000 translated_split)
    as (F & H1 & H2 & _ & H4).
  - reflexivity.
  - exists F. split; [exact H1|]. split; [exact H2|].
    intros k b Hk. apply (H4 k b Hk).
Defined.

Lemma translate_function_witness :
  (∃ fuel, ∀ fuel', (fuel ≤ fuel')%nat →
     ∃ res tr',
       translate_function false demo_lifter fuel' tr_empty
         (0x600000, [split_descriptor]) = Some (res, tr')
       ∧ ((res = Some 0x600000
           ∧ ∃ F, _functions tr' !! 0x600000 = Some F ∧ finalized F = true)
          ∨ (res = None ∧ _functions tr' !! 0x600000 = None)))
  ∧ ∃ tr1,
      translate_function_with flaky_process tr_empty
        (0x600000, [over_descriptor]) = Some (None, tr1)
      ∧ flaky_process (fresh_entry 0x600000 tr_empty) 0x600000
          over_descriptor = Some (false, fresh_entry 0x600000 tr_empty)
      ∧ _functions tr1 !! 0x600000 = None.
Proof.
  destruct (translate_function_all_or_nothing false demo_lifter
              demo_lifter_range tr_empty 0x600000 [split_descriptor])
    as (_ & _ & HR & fuel & HT).
  { repeat constructor; vm_compute; discriminate. }
  destruct (translate_function_all_or_nothing false demo_lifter
              demo_lifter_range tr_empty 0x600000 [over_descriptor])
    as (_ & HG & _).
  { repeat constructor; vm_compute; discriminate. }
  split.
  - exists fuel. intros fuel' Hle.
    destruct (HT fuel' Hle) as (res & tr' & E).
    exists res, tr'. split; [exact E|].
    destruct (HR fuel' res tr' E)
      as [(-> & tr1 & F1 & _ & _ & _ & E1 & E2)
         | (-> & done & b & rest & t0 & tr1 & _ & _ & _ & _ & E1)].
    + left. split; [reflexivity|]. eexists. split; [exact E1 | exact E2].
    + right. split; [reflexivity | exact E1].
  - destruct (HG flaky_process None
                (discard_function 0x600000 (fresh_entry 0x600000 tr_empty)))
      as [(Hres & _) | (_ & done & b & rest & t0 & tr1 & _ & _ & _ & _ & E1)].
    + reflexivity.
    + discriminate Hres.
    + eexists. split; [reflexivity|]. split; [reflexivity | exact E1].
Defined.

(** * Further properties of the classifier *)

Section ClassifierShape.

Variable residual_is_tail : bool.

Local Abbreviation get_terminator := (get_terminator residual_is_tail).

(** What each terminator type says about the two addresses: [target] is
    0 for CallUnresolved, Return, Fallthrough and Unresolved and non-zero
    for Call and Jcc; [fall_through] is 0 for Jump, Return and
    Unresolved; a Jump goes to the constant of [next]; NoReturn is never
    produced. *)
Theorem terminator_shape block block_start :
  match type (get_terminator block block_start) with
  | TerminatorCall =>
      target (get_terminator block block_start) = jmp_call_target block
      ∧ target (get_terminator block block_start) ≠ 0
      ∧ fall_through (get_terminator block block_start)
          = fall_through0 block
  | TerminatorCallUnresolved =>
      target (get_terminator block block_start) = 0
      ∧ jmp_call_target block = 0
  | TerminatorJump =>
      target (get_terminator block block_start) = jmp_call_target block
      ∧ fall_through (get_terminator block block_start) = 0
      ∧ jmp_call_target block ≠ last_addr block
  | TerminatorJcc =>
      target (get_terminator block block_start) ≠ 0
      ∧ fall_through (get_terminator block block_start)
          = fall_through0 block
  | TerminatorReturn | TerminatorUnresolved =>
      target (get_terminator block block_start) = 0
      ∧ fall_through (get_terminator block block_start) = 0
  | TerminatorFallthrough =>
      target (get_terminator block block_start) = 0
  | TerminatorNoReturn => False
  end.
Proof.
  unfold get_terminator, dispatch.
  destruct (jumpkind block); cbn [type target fall_through].
  - destruct (Z.eqb_spec (fused_jcc_target block block_start) 0);
      cbn [negb type target fall_through]; [|auto].
    destruct (Z.eqb_spec (jmp_call_target block) (last_addr block));
      cbn [type target fall_through]; [auto|].
    destruct (Z.eqb_spec (jmp_call_target block) (fall_through0 block));
      cbn [type target fall_through]; [auto|].
    destruct (Z.eqb_spec (jmp_call_target block) 0);
      cbn [negb type target fall_through]; auto.
  - destruct (Z.eqb_spec (jmp_call_target block) 0);
      cbn [negb type target fall_through]; auto.
  - auto.
  - auto.
  - auto.
Qed.

End ClassifierShape.

(** ** Where a Jcc target comes from *)

Lemma scan_exits_nonzero block_start la ft jct rs jcc c :
  jcc ≠ 0 → scan_exits block_start la ft jct rs jcc c = (jcc, c).
Proof.
  intros Hnz. destruct rs; simpl;
    destruct (Z.eqb_spec jcc 0); simpl; congruence.
Qed.

(** A non-zero result of the second loop is the destination of an exit
    statement it visited, and lies outside [(block_start, last_addr]]. *)
Lemma scan_exits_from_exit block_start la ft jct rs :
  ∀ c,
    fst (scan_exits block_start la ft jct rs 0 c) ≠ 0 →
    ∃ dst,
      Ist_Exit dst ∈ rs
      ∧ Ico_U64_val dst = fst (scan_exits block_start la ft jct rs 0 c)
      ∧ ¬ (block_start < Ico_U64_val dst ≤ la).
Proof.
  induction rs as [|s rs IH]; intros c; simpl; [congruence|].
  destruct s as [a l|dst|p]; simpl; [congruence | |].
  - destruct ((Ico_U64_val dst =? jct) && (ft =? Ico_U64_val dst)) eqn:Hdeg.
    + destruct ((block_start <? 0) && (0 <=? la)); intros H;
        destruct (IH _ H) as (d & Hin & Hd);
        exists d; (split; [right; exact Hin | exact Hd]).
    + destruct ((block_start <? Ico_U64_val dst) && (Ico_U64_val dst <=? la))
        eqn:Hin.
      * intros H. destruct (IH _ H) as (d & Hd & Hd').
        exists d. split; [right; exact Hd | exact Hd'].
      * destruct (Z.eq_dec (Ico_U64_val dst) 0) as [E|E].
        -- rewrite E. intros H. destruct (IH _ H) as (d & Hd & Hd').
           exists d. split; [right; exact Hd | exact Hd'].
        -- rewrite scan_exits_nonzero by exact E. simpl. intros _.
           exists dst. split; [left|]. split; [reflexivity|].
           apply andb_false_iff in Hin. lia.
  - intros H. destruct (IH _ H) as (d & Hd & Hd').
    exists d. split; [right; exact Hd | exact Hd'].
Qed.

(** The second loop reports a conditional only if it visited an exit. *)
Lemma scan_exits_conditional block_start la ft jct rs :
  ∀ c,
    snd (scan_exits block_start la ft jct rs 0 c) = true →
    c = true ∨ ∃ dst, Ist_Exit dst ∈ rs.
Proof.
  induction rs as [|s rs IH]; intros c; simpl; [auto|].
  destruct s as [a l|dst|p]; simpl; [auto | |].
  - intros _. right. exists dst. left.
  - intros H. destruct (IH _ H) as [?|(d & Hd)]; [auto|].
    right. exists d. right. exact Hd.
Qed.

Section ClassifierProvenance.

Variable residual_is_tail : bool.

Local Abbreviation get_terminator := (get_terminator residual_is_tail).

(** A Jcc needs an exit statement among the active statements.  Its
    target is either the destination of such an exit, lying outside
    [(block_start, last_addr]], or -- when the fusion step fired -- the
    constant of [next]. *)
Theorem jcc_target_provenance block block_start :
  type (get_terminator block block_start) = TerminatorJcc →
  (∃ dst, Ist_Exit dst ∈ active block)
  ∧ ((∃ dst,
        Ist_Exit dst ∈ active block
        ∧ Ico_U64_val dst = target (get_terminator block block_start)
        ∧ ¬ (block_start < target (get_terminator block block_start)
             ≤ last_addr block))
     ∨ (fusion_fires block block_start = true
        ∧ target (get_terminator block block_start)
            = jmp_call_target block)).
Proof.
  intros HJ. apply get_terminator_Jcc_inv in HJ as (_ & Hnz & ->).
  cbn [target]. unfold fused_jcc_target in *.
  destruct (fusion_fires block block_start) eqn:Hf.
  - split; [|right; auto].
    apply fusion_fires_spec in Hf as (Hc & _).
    apply scan_exits_conditional in Hc as [?|(d & Hd)]; [discriminate|].
    exists d. rewrite elem_of_reverse in Hd. exact Hd.
  - destruct (scan_exits_from_exit _ _ _ _ _ _ Hnz) as (d & Hd & Hv & Hout).
    rewrite elem_of_reverse in Hd.
    split; [exists d; exact Hd|]. left. exists d.
    split; [exact Hd|]. split; [exact Hv|].
    unfold scan. rewrite <- Hv. exact Hout.
Qed.

(** After a truncation the classifier answers Fallthrough to the address
    the block was cut at, whatever the lifted block looked like; the
    non-returning overlay leaves it alone. *)
Theorem truncated_block_falls_through count ir block_start nr :
  (count + 1 ≤ head_instructions ir)%nat →
  ∃ i a l,
    stmts ir !! i = Some (Ist_IMark a l)
    ∧ count_imarks (take i (stmts ir)) = count
    ∧ get_terminator (truncate_block count ir) block_start
        = MkTerminator TerminatorFallthrough 0 a residual_is_tail
    ∧ overlay_no_return nr
        (get_terminator (truncate_block count ir) block_start)
        = MkTerminator TerminatorFallthrough 0 a residual_is_tail.
Proof.
  intros Hover.
  destruct (truncate_block_over _ _ Hover) as (i & a & l & _ & Hm & Hc & ->).
  exists i, a, l. split; [exact Hm|]. split; [exact Hc|].
  assert (E : get_terminator
                (MkIRSB (stmts ir) i (retarget_next (next ir) a) Ijk_NoDecode)
                block_start
              = MkTerminator TerminatorFallthrough 0 a residual_is_tail).
  { unfold get_terminator, dispatch, jmp_call_target. cbn [jumpkind next].
    destruct (next ir); reflexivity. }
  rewrite E. split; reflexivity.
Qed.

End ClassifierProvenance.

(** ** Truncation cuts to the catalog's instruction count *)

(** The truncated super-block has [instruction_count] instructions when
    the lifted one had more, and is the lifted one otherwise; truncating
    twice is truncating once. *)
Theorem truncate_block_count count ir :
  head_instructions (truncate_block count ir)
    = (head_instructions ir `min` count)%nat
  ∧ truncate_block count (truncate_block count ir) = truncate_block count ir.
Proof.
  assert (Hhead : head_instructions (truncate_block count ir)
                  = (head_instructions ir `min` count)%nat).
  { destruct (le_lt_dec (count + 1) (head_instructions ir)) as [Hover|Hle].
    - destruct (truncate_block_over _ _ Hover)
        as (i & a & l & _ & _ & Hc & ->).
      unfold head_instructions at 1, active. cbn [stmts stmts_used].
      rewrite Hc. lia.
    - unfold truncate_block.
      rewrite truncate_scan_None by (unfold head_instructions in Hle; lia).
      lia. }
  split; [exact Hhead|].
  unfold truncate_block at 1.
  rewrite truncate_scan_None; [reflexivity|].
  fold (head_instructions (truncate_block count ir)). lia.
Qed.

(** * Further properties of the block processor and the registry *)

Section RegistryFacts.

Variable residual_is_tail : bool.
Variable vex_translate : Z → nat → IRSB * Z.

Local Abbreviation get_terminator := (get_terminator residual_is_tail).
Local Abbreviation finalize_block := (finalize_block residual_is_tail).
Local Abbreviation process_block :=
  (process_block residual_is_tail vex_translate).
Local Abbreviation process_blocks :=
  (process_blocks residual_is_tail vex_translate).
Local Abbreviation translate_function :=
  (translate_function residual_is_tail vex_translate).
Local Abbreviation maybe_translate_function :=
  (maybe_translate_function residual_is_tail vex_translate).

Lemma lifted_from_mono seen seen' block a :
  seen ⊆ seen' →
  lifted_from vex_translate seen' block a →
  lifted_from vex_translate seen block a.
Proof.
  intros Hsub H. induction H as [d Hne Hnew|d ir re a Hne Hnew Hvex Hlt _ IH].
  - apply lifted_start; [exact Hne | set_solver].
  - eapply lifted_split; eauto; set_solver.
Qed.

(** What one call of [process_block] does to the memo and to the blocks
    of the function: super-blocks at seen addresses stay; a block of the
    function afterwards is a block it had, or a new one at an address
    that was not seen, stored under its address with the super-block the
    global map now holds and the terminator of [finalize_block], and
    that address is one the call lifted at for the descriptor. *)
Lemma process_block_grows fuel :
  ∀ tr fn block r tr',
    process_block fuel tr fn block = Some (r, tr') →
    (∀ a, a ∈ _seen_blocks tr → _blocks tr' !! a = _blocks tr !! a)
    ∧ (block_start block ≠ block_end block →
       block_start block ∈ _seen_blocks tr')
    ∧ ∀ F F',
        _functions tr !! fn = Some F → _functions tr' !! fn = Some F' →
        ∀ a b, get_blocks F' !! a = Some b →
          get_blocks F !! a = Some b
          ∨ ((a ∉ _seen_blocks tr)
             ∧ (a ∈ _seen_blocks tr')
             ∧ get_address b = a
             ∧ _blocks tr' !! a = Some (get_irsb b)
             ∧ block_terminator b
                 = overlay_no_return (non_returning tr)
                     (get_terminator (get_irsb b) a)
             ∧ lifted_from vex_translate (_seen_blocks tr) block a).
Proof.
  induction fuel as [|fuel IH]; intros tr fn block r tr' H; [discriminate|].
  destruct (process_block_cases vex_translate tr block)
    as [Hskip | (ir & re & Hne & Hnew & Hvex & Hcase)].
  { rewrite process_block_skip in H by assumption. injection H as <- <-.
    split; [auto|]. split; [tauto|].
    intros F F' HF HF' a b Hb. left. congruence. }
  assert (Hfin : ∀ tr2 (Q : Z → Prop),
            (∀ a, Q a → lifted_from vex_translate (_seen_blocks tr) block a) →
            frame fn (mark_seen block tr) tr2 →
            (∀ a, a ∈ _seen_blocks (mark_seen block tr) →
                  _blocks tr2 !! a = _blocks tr !! a) →
            (∀ F F2,
               _functions tr !! fn = Some F → _functions tr2 !! fn = Some F2 →
               ∀ a b, get_blocks F2 !! a = Some b →
                 get_blocks F !! a = Some b
                 ∨ ((a ∉ _seen_blocks (mark_seen block tr))
                    ∧ (a ∈ _seen_blocks tr2)
                    ∧ get_address b = a
                    ∧ _blocks tr2 !! a = Some (get_irsb b)
                    ∧ block_terminator b
                        = overlay_no_return (non_returning tr)
                            (get_terminator (get_irsb b) a)
                    ∧ Q a)) →
            ∀ ir',
              (∀ a, a ∈ _seen_blocks tr →
                    _blocks (finalize_block tr2 fn block ir') !! a
                      = _blocks tr !! a)
              ∧ (block_start block ≠ block_end block →
                 block_start block
                   ∈ _seen_blocks (finalize_block tr2 fn block ir'))
              ∧ ∀ F F',
                  _functions tr !! fn = Some F →
                  _functions (finalize_block tr2 fn block ir') !! fn
                    = Some F' →
                  ∀ a b, get_blocks F' !! a = Some b →
                    get_blocks F !! a = Some b
                    ∨ ((a ∉ _seen_blocks tr)
                       ∧ (a ∈ _seen_blocks (finalize_block tr2 fn block ir'))
                       ∧ get_address b = a
                       ∧ _blocks (finalize_block tr2 fn block ir') !! a
                           = Some (get_irsb b)
                       ∧ block_terminator b
                           = overlay_no_return (non_returning tr)
                               (get_terminator (get_irsb b) a)
                       ∧ lifted_from vex_translate (_seen_blocks tr)
                           block a)).
  { intros tr2 Q HQ Hfr Hfz Hnb ir'.
    pose proof (fr_seen _ _ _ Hfr) as Hsub. simpl in Hsub.
    destruct (fr_dump _ _ _ Hfr) as (Hnr & _). simpl in Hnr.
    split; [|split].
    - intros a Ha. rewrite finalize_block_blocks.
      rewrite lookup_insert_ne;
        [|intros E; apply Hnew; rewrite E; exact Ha].
      apply Hfz. simpl. set_solver.
    - intros _. simpl. set_solver.
    - intros F F' HF HF' a b Hb.
      destruct (fr_fun _ _ _ Hfr F HF) as (F2 & HF2 & _).
      rewrite (finalize_block_attaches _ _ _ _ _ _ HF2) in HF'.
      injection HF' as <-. simpl in Hb.
      rewrite finalize_block_blocks.
      destruct (decide (block_start block = a)) as [<-|Hna].
      + rewrite lookup_insert_eq in Hb. injection Hb as <-. right. simpl.
        rewrite lookup_insert_eq. unfold final_terminator. rewrite Hnr.
        split; [exact Hnew|]. split; [set_solver|].
        split; [reflexivity|]. split; [reflexivity|].
        split; [reflexivity|]. apply lifted_start; assumption.
      + rewrite lookup_insert_ne in Hb by assumption.
        rewrite lookup_insert_ne by assumption.
        destruct (Hnb F F2 HF HF2 a b Hb)
          as [?|(N1 & N2 & N3 & N4 & N5 & N6)]; [left; assumption|].
        right. simpl in N1.
        split; [set_solver|]. split; [exact N2|]. split; [exact N3|].
        split; [exact N4|]. split; [exact N5|]. apply HQ, N6. }
  destruct Hcase as [Hlt|Hge].
  - rewrite (process_block_under _ _ _ _ _ _ ir re) in H by assumption.
    match type of H with
    | context [process_block fuel ?a ?b ?c] =>
        destruct (process_block fuel a b c) as [[r2 tr2]|] eqn:Hrec;
          [|discriminate]
    end.
    injection H as _ <-.
    destruct (process_block_frame _ _ _ _ _ _ _ _ Hrec) as [_ Hfr].
    destruct (IH _ _ _ _ _ Hrec) as (Hfz & _ & Hnb).
    apply (Hfin tr2
             (lifted_from vex_translate (_seen_blocks (mark_seen block tr))
                (MkBlockDescriptor re (block_end block)
                   (instruction_count block - head_instructions ir))));
      [|exact Hfr | exact Hfz | exact Hnb].
    intros a Ha. eapply lifted_split; eauto.
    eapply lifted_from_mono; [|exact Ha]. simpl. set_solver.
  - rewrite (process_block_over _ _ _ _ _ _ ir re) in H by assumption.
    injection H as _ <-.
    apply (Hfin _ (λ _, False)); [contradiction | apply frame_refl | auto |].
    intros F F2 HF HF2 a b Hb. left. simpl in HF2. congruence.
Qed.


(** The same for the loop over the catalog blocks. *)
Lemma process_blocks_grows fuel blocks :
  ∀ tr fn r tr',
    process_blocks fuel tr fn blocks = Some (r, tr') →
    (∀ a, a ∈ _seen_blocks tr → _blocks tr' !! a = _blocks tr !! a)
    ∧ (∀ d, d ∈ blocks → block_start d ≠ block_end d →
            block_start d ∈ _seen_blocks tr')
    ∧ ∀ F F',
        _functions tr !! fn = Some F → _functions tr' !! fn = Some F' →
        ∀ a b, get_blocks F' !! a = Some b →
          get_blocks F !! a = Some b
          ∨ ((a ∉ _seen_blocks tr)
             ∧ (a ∈ _seen_blocks tr')
             ∧ get_address b = a
             ∧ _blocks tr' !! a = Some (get_irsb b)
             ∧ block_terminator b
                 = overlay_no_return (non_returning tr)
                     (get_terminator (get_irsb b) a)
             ∧ ∃ d, d ∈ blocks
                    ∧ lifted_from vex_translate (_seen_blocks tr) d a).
Proof.
  induction blocks as [|d0 rest IH]; intros tr fn r tr' H; simpl in H.
  { injection H as <- <-. split; [auto|]. split.
    - intros d Hd. apply elem_of_nil in Hd. contradiction.
    - intros F F' HF HF' a b Hb. left. congruence. }
  destruct (process_block fuel tr fn d0) as [[r1 tr1]|] eqn:Hb1;
    [|discriminate].
  destruct (process_block_frame _ _ _ _ _ _ _ _ Hb1) as [-> Hfr1].
  destruct (process_block_grows _ _ _ _ _ _ Hb1) as (Hfz1 & Hst1 & Hnb1).
  destruct (process_blocks_frame _ _ _ _ _ _ _ _ H) as [_ Hfr2].
  destruct (IH _ _ _ _ H) as (Hfz2 & Hst2 & Hnb2).
  pose proof (fr_seen _ _ _ Hfr1) as Hsub1.
  pose proof (fr_seen _ _ _ Hfr2) as Hsub2.
  destruct (fr_dump _ _ _ Hfr1) as (Hnr1 & _).
  split; [|split].
  - intros a Ha. rewrite Hfz2 by set_solver. apply Hfz1, Ha.
  - intros d Hd Hne. apply elem_of_cons in Hd as [->|Hd].
    + apply Hsub2, Hst1, Hne.
    + apply Hst2; assumption.
  - intros F F' HF HF' a b Hb.
    destruct (fr_fun _ _ _ Hfr1 F HF) as (F1 & HF1 & _).
    destruct (Hnb2 F1 F' HF1 HF' a b Hb)
      as [Hold|(N1 & N2 & N3 & N4 & N5 & N6)].
    + destruct (Hnb1 F F1 HF HF1 a b Hold)
        as [?|(M1 & M2 & M3 & M4 & M5 & M6)]; [left; assumption|].
      right. split; [exact M1|]. split; [set_solver|].
      split; [exact M3|]. split; [rewrite Hfz2 by exact M2; exact M4|].
      split; [exact M5|]. exists d0. split; [left | exact M6].
    + right. split; [set_solver|]. split; [exact N2|].
      split; [exact N3|]. split; [exact N4|].
      split; [rewrite <- Hnr1; exact N5|].
      destruct N6 as (d & Hd & Hl). exists d. split; [right; exact Hd|].
      eapply lifted_from_mono; [exact Hsub1 | exact Hl].
Qed.

(** [translate_function], read backwards. *)
Lemma translate_function_inv fuel tr address blocks res tr' :
  translate_function fuel tr (address, blocks) = Some (res, tr') →
  ∃ tr1 F1,
    process_blocks fuel (fresh_entry address tr) address blocks
      = Some (true, tr1)
    ∧ _functions tr1 !! address = Some F1
    ∧ res = Some address
    ∧ tr' = set_functions
              (<[address := Function_finalize (detect_tail_jumps F1)]>
                 (_functions tr1)) tr1.
Proof.
  unfold translate_function. cbn [fst snd].
  destruct (process_blocks fuel (fresh_entry address tr) address blocks)
    as [[r tr1]|] eqn:Hloop; [|discriminate].
  destruct (process_blocks_frame _ _ _ _ _ _ _ _ Hloop) as [-> Hfr].
  intros [= <- <-].
  destruct (fr_fun _ _ _ Hfr (Function_new address)) as (F1 & HF1 & _).
  { simpl. apply lookup_insert_eq. }
  exists tr1, F1. repeat split; try assumption.
  f_equal. apply map_eq. intros k. rewrite lookup_alter, lookup_insert.
  destruct (decide (address = k)) as [<-|Hk]; [|reflexivity].
  rewrite HF1. reflexivity.
Qed.

(** The blocks of a function the detector and [finalize] have visited,
    in terms of the blocks before. *)
Lemma finalized_block_lookup F a b :
  get_blocks (Function_finalize (detect_tail_jumps F)) !! a = Some b →
  ∃ b0,
    get_blocks F !! a = Some b0
    ∧ get_address b = get_address b0
    ∧ get_irsb b = get_irsb b0
    ∧ type (block_terminator b) = type (block_terminator b0)
    ∧ target (block_terminator b) = target (block_terminator b0)
    ∧ fall_through (block_terminator b) = fall_through (block_terminator b0).
Proof.
  change (get_blocks (Function_finalize (detect_tail_jumps F)))
    with (get_blocks (detect_tail_jumps F)).
  intros Hb.
  apply detect_tail_jumps_lookup in Hb as (b0 & Hb0 & ->).
  exists b0. split; [exact Hb0|].
  destruct (detect_tail_spec (get_blocks F) b0) as (E1 & E2 & E3 & E4 & E5 & _).
  auto.
Qed.

(** ** What a translation leaves behind *)

(** [translate_function] never returns a null handle: whenever it
    returns, the handle is the entry address, at which the registry holds
    a finalized function with that entry address and no cross references
    yet. *)
Theorem translate_function_never_null fuel tr address blocks res tr' :
  translate_function fuel tr (address, blocks) = Some (res, tr') →
  res = Some address
  ∧ ∃ F,
      _functions tr' !! address = Some F
      ∧ finalized F = true
      ∧ entry_address F = address
      ∧ xrefs F = ∅
      ∧ vfunc_xrefs F = ∅.
Proof.
  intros H.
  apply translate_function_outcome in H
    as (tr1 & F1 & _ & -> & _ & [E1 _ [E3 E4] _ _ _] & _ & HF & _).
  split; [reflexivity|].
  eexists. split; [exact HF|]. simpl. auto.
Qed.

(** The memo only grows: seen addresses stay seen and keep the
    super-block the global map holds for them; the start of every
    non-empty catalog block is seen afterwards; every address that
    became seen has a super-block in the global map. *)
Theorem translate_function_memo fuel tr address blocks res tr' :
  translate_function fuel tr (address, blocks) = Some (res, tr') →
  _seen_blocks tr ⊆ _seen_blocks tr'
  ∧ (∀ a, a ∈ _seen_blocks tr → _blocks tr' !! a = _blocks tr !! a)
  ∧ (∀ d, d ∈ blocks → block_start d ≠ block_end d →
          block_start d ∈ _seen_blocks tr')
  ∧ (∀ a, a ∈ _seen_blocks tr' → a ∉ _seen_blocks tr →
          is_Some (_blocks tr' !! a)).
Proof.
  intros H. apply translate_function_inv in H as (tr1 & F1 & Hloop & _ & _ & ->).
  destruct (process_blocks_frame _ _ _ _ _ _ _ _ Hloop) as [_ Hfr].
  destruct (process_blocks_grows _ _ _ _ _ _ Hloop) as (Hfz & Hst & _).
  simpl. split; [apply (fr_seen _ _ _ Hfr)|].
  split; [intros a Ha; apply Hfz; exact Ha|].
  split; [exact Hst|].
  intros a Ha Hna. apply (fr_seen_ir _ _ _ Hfr); assumption.
Qed.

(** Translating one entry leaves every other function of the registry,
    the two tables of the dump file and the finalized flag as they
    were. *)
Theorem translate_function_frame fuel tr address blocks res tr' :
  translate_function fuel tr (address, blocks) = Some (res, tr') →
  (∀ k, k ≠ address → _functions tr' !! k = _functions tr !! k)
  ∧ non_returning tr' = non_returning tr
  ∧ dump_functions tr' = dump_functions tr
  ∧ _is_finalized tr' = _is_finalized tr.
Proof.
  intros H. apply translate_function_inv in H as (tr1 & F1 & Hloop & _ & _ & ->).
  destruct (process_blocks_frame _ _ _ _ _ _ _ _ Hloop) as [_ Hfr].
  destruct (fr_dump _ _ _ Hfr) as (E1 & E2 & E3). simpl in *.
  split; [|auto].
  intros k Hk. rewrite lookup_insert_ne by congruence.
  rewrite (fr_other _ _ _ Hfr k Hk). simpl.
  apply lookup_insert_ne. congruence.
Qed.

(** The blocks of a function just translated, traced back to the loop:
    each was attached in this translation, at an address not seen
    before. *)
Lemma translated_block_origin fuel tr address blocks tr1 F1 a b :
  process_blocks fuel (fresh_entry address tr) address blocks
    = Some (true, tr1) →
  _functions tr1 !! address = Some F1 →
  get_blocks (Function_finalize (detect_tail_jumps F1)) !! a = Some b →
  (a ∉ _seen_blocks tr)
  ∧ (a ∈ _seen_blocks tr1)
  ∧ get_address b = a
  ∧ _blocks tr1 !! a = Some (get_irsb b)
  ∧ block_classified residual_is_tail (non_returning tr) a b
  ∧ ∃ d, d ∈ blocks ∧ lifted_from vex_translate (_seen_blocks tr) d a.
Proof.
  intros Hloop HF1 Hb.
  apply finalized_block_lookup in Hb as (b0 & Hb0 & E1 & E2 & E3 & E4 & E5).
  destruct (process_blocks_grows _ _ _ _ _ _ Hloop) as (_ & _ & Hnb).
  destruct (Hnb (Function_new address) F1) with (a := a) (b := b0)
    as [Hold|(N1 & N2 & N3 & N4 & N5 & N6)]; try assumption.
  { simpl. apply lookup_insert_eq. }
  { simpl in Hold. rewrite lookup_empty in Hold. discriminate. }
  simpl in N1, N5.
  split; [exact N1|]. split; [exact N2|]. split; [congruence|].
  split; [congruence|]. split; [|exact N6].
  unfold block_classified. rewrite E2, E3, E4, E5, N5. auto.
Qed.

(** Every block of a function just translated is stored under its own
    address with the super-block the global map holds for it, and its
    terminator is, up to [is_tail], the classifier's for that
    super-block with the non-returning overlay.  So a Jcc never targets
    its own fall-through, and a NoReturn targets a member of the
    non-returning set. *)
Theorem translated_blocks_classified fuel tr address blocks res tr' F a b :
  translate_function fuel tr (address, blocks) = Some (res, tr') →
  _functions tr' !! address = Some F →
  get_blocks F !! a = Some b →
  get_address b = a
  ∧ _blocks tr' !! a = Some (get_irsb b)
  ∧ block_classified residual_is_tail (non_returning tr) a b
  ∧ (type (block_terminator b) = TerminatorJcc →
     target (block_terminator b) ≠ fall_through (block_terminator b))
  ∧ (type (block_terminator b) = TerminatorNoReturn →
     target (block_terminator b) ∈ non_returning tr).
Proof.
  intros H HF Hb.
  apply translate_function_inv in H as (tr1 & F1 & Hloop & HF1 & _ & ->).
  simpl in HF. rewrite lookup_insert_eq in HF. injection HF as <-.
  destruct (translated_block_origin _ _ _ _ _ _ _ _ Hloop HF1 Hb)
    as (_ & _ & E1 & E2 & Hcl & _).
  split; [exact E1|]. split; [exact E2|]. split; [exact Hcl|].
  destruct Hcl as (Hty & Htg & Hft).
  destruct (overlay_no_return_spec (non_returning tr)
              (get_terminator (get_irsb b) a)
              (get_terminator_not_NoReturn _ _ _))
    as (Hiff & Hsame & Htgt & Hftt & _).
  split.
  - intros HJ. rewrite Hty in HJ.
    assert (Hnn : type (overlay_no_return (non_returning tr)
                          (get_terminator (get_irsb b) a))
                  ≠ TerminatorNoReturn) by congruence.
    rewrite (Hsame Hnn) in HJ, Htg, Hft. rewrite Htg, Hft.
    apply get_terminator_Jcc_inv in HJ as (_ & Hnz & ->). simpl.
    apply fused_jcc_target_ne_fall_through, Hnz.
  - intros HN. rewrite Hty in HN. rewrite Htg, Htgt. apply Hiff, HN.
Qed.

(** The address of every block of a function just translated was not
    seen before the translation, is seen after it, and is an address the
    translation lifted at for one of the entry's catalog blocks: the
    start of a non-empty catalog block, or the [real_end] the lifter
    reported at the end of a chain of under-translation splits that
    starts at such a block. *)
Theorem translated_block_addresses fuel tr address blocks res tr' F a b :
  translate_function fuel tr (address, blocks) = Some (res, tr') →
  _functions tr' !! address = Some F →
  get_blocks F !! a = Some b →
  (a ∉ _seen_blocks tr)
  ∧ (a ∈ _seen_blocks tr')
  ∧ ∃ d, d ∈ blocks ∧ lifted_from vex_translate (_seen_blocks tr) d a.
Proof.
  intros H HF Hb.
  apply translate_function_inv in H as (tr1 & F1 & Hloop & HF1 & _ & ->).
  simpl in HF. rewrite lookup_insert_eq in HF. injection HF as <-.
  destruct (translated_block_origin _ _ _ _ _ _ _ _ Hloop HF1 Hb)
    as (N1 & N2 & _ & _ & _ & N6).
  split; [exact N1|]. split; [exact N2|]. exact N6.
Qed.

(** ** The registry invariant *)

Lemma registry_wf_step fuel tr address blocks res tr' :
  registry_wf residual_is_tail tr →
  translate_function fuel tr (address, blocks) = Some (res, tr')
  ∨ maybe_translate_function fuel tr address = Some (res, tr') →
  registry_wf residual_is_tail tr'.
Proof.
  intros Hwf H.
  assert (Htf : tr' = tr
                ∨ ∃ blocks',
                    translate_function fuel tr (address, blocks')
                      = Some (res, tr')).
  { destruct H as [H|H]; [right; eauto|].
    unfold maybe_translate_function in H.
    destruct (_functions tr !! address); [injection H as _ <-; auto|].
    destruct (dump_functions tr !! address) as [bs|];
      [right; eauto | injection H as _ <-; auto]. }
  clear H. destruct Htf as [->|(blocks' & H)]; [exact Hwf|].
  apply translate_function_inv in H as (tr1 & F1 & Hloop & HF1 & _ & ->).
  destruct (process_blocks_frame _ _ _ _ _ _ _ _ Hloop) as [_ Hfr].
  destruct (process_blocks_grows _ _ _ _ _ _ Hloop) as (Hfz & _ & _).
  destruct (fr_dump _ _ _ Hfr) as (Hnr & _). simpl in Hnr, Hfz.
  pose proof (fr_seen _ _ _ Hfr) as Hsub. simpl in Hsub.
  assert (Hother : ∀ k, k ≠ address →
            _functions tr1 !! k = _functions tr !! k).
  { intros k Hk. rewrite (fr_other _ _ _ Hfr k Hk). simpl.
    apply lookup_insert_ne. congruence. }
  assert (Hnew : ∀ a b,
            get_blocks (Function_finalize (detect_tail_jumps F1)) !! a
              = Some b →
            (a ∉ _seen_blocks tr) ∧ (a ∈ _seen_blocks tr1)
            ∧ get_address b = a ∧ _blocks tr1 !! a = Some (get_irsb b)
            ∧ block_classified residual_is_tail (non_returning tr) a b).
  { intros a b Hb.
    destruct (translated_block_origin _ _ _ _ _ _ _ _ Hloop HF1 Hb)
      as (N1 & N2 & N3 & N4 & N5 & _). auto. }
  intros fn F a b HF Hb. simpl in *.
  destruct (decide (address = fn)) as [<-|Hfn].
  - rewrite lookup_insert_eq in HF. injection HF as <-.
    destruct (Hnew a b Hb) as (N1 & N2 & N3 & N4 & N5).
    rewrite Hnr. repeat split; try assumption; try apply N5.
    intros fn' F' Hne HF'. rewrite lookup_insert_ne in HF' by congruence.
    rewrite Hother in HF' by congruence.
    destruct (get_blocks F' !! a) as [b'|] eqn:Hb'; [|reflexivity].
    destruct (Hwf fn' F' a b' HF' Hb') as (Hs & _). contradiction.
  - rewrite lookup_insert_ne in HF by congruence.
    rewrite Hother in HF by congruence.
    destruct (Hwf fn F a b HF Hb) as (W1 & W2 & W3 & W4 & W5).
    rewrite Hnr, Hfz by exact W1.
    repeat split; try assumption; try apply W4; [set_solver|].
    intros fn' F' Hne HF'.
    destruct (decide (address = fn')) as [<-|Hfn'].
    + rewrite lookup_insert_eq in HF'. injection HF' as <-.
      destruct (get_blocks (Function_finalize (detect_tail_jumps F1)) !! a)
        as [b'|] eqn:Hb'; [|reflexivity].
      destruct (Hnew a b' Hb') as (N1 & _). contradiction.
    + rewrite lookup_insert_ne in HF' by congruence.
      rewrite Hother in HF' by congruence.
      apply (W5 fn' F' Hne HF').
Qed.

Lemma registry_wf_empty bs seen fin nr cat :
  registry_wf residual_is_tail (MkTranslator ∅ bs seen fin nr cat).
Proof. intros fn F a b HF. simpl in HF. rewrite lookup_empty in HF. discriminate. Qed.

(** A registry without functions is consistent, and translating an
    entry, directly or on demand, keeps the registry consistent:
    afterwards too every block of every registered function sits under
    its own address at a seen address, with the super-block of the global
    map and the classifier's terminator, and no two functions hold a
    block at the same address. *)
Theorem registry_wf_preserved fuel tr address blocks res tr' :
  registry_wf residual_is_tail tr →
  translate_function fuel tr (address, blocks) = Some (res, tr')
  ∨ maybe_translate_function fuel tr address = Some (res, tr') →
  registry_wf residual_is_tail tr'
  ∧ ∀ fn1 fn2 F1 F2 a,
      _functions tr' !! fn1 = Some F1 → _functions tr' !! fn2 = Some F2 →
      is_Some (get_blocks F1 !! a) → is_Some (get_blocks F2 !! a) →
      fn1 = fn2.
Proof.
  intros Hwf H.
  pose proof (registry_wf_step _ _ _ _ _ _ Hwf H) as Hwf'.
  split; [exact Hwf'|].
  intros fn1 fn2 F1 F2 a HF1 HF2 [b1 Hb1] [b2 Hb2].
  destruct (decide (fn1 = fn2)) as [?|Hne]; [assumption|].
  destruct (Hwf' fn1 F1 a b1 HF1 Hb1) as (_ & _ & _ & _ & Hdis).
  rewrite (Hdis fn2 F2 (not_eq_sym Hne) HF2) in Hb2. discriminate.
Qed.

(** ** Look-ups on demand *)

(** Once an address has a function, looking it up again returns the same
    handle without lifting anything: the translator is unchanged, and no
    fuel is needed. *)
Theorem maybe_translate_function_cached fuel tr address h tr' :
  maybe_translate_function fuel tr address = Some (Some h, tr') →
  h = address
  ∧ is_Some (_functions tr' !! address)
  ∧ ∀ fuel', maybe_translate_function fuel' tr' address = Some (Some h, tr').
Proof.
  intros H.
  assert (E : h = address ∧ is_Some (_functions tr' !! address)).
  { unfold maybe_translate_function in H.
    destruct (_functions tr !! address) as [F|] eqn:HF.
    - injection H as <- <-. rewrite HF. eauto.
    - destruct (dump_functions tr !! address) as [bs|]; [|discriminate].
      apply translate_function_outcome in H
        as (tr1 & F1 & _ & [= <-] & _ & _ & _ & HF' & _).
      rewrite HF'. eauto. }
  destruct E as [-> [F HF]]. split; [reflexivity|]. split; [eauto|].
  intros fuel'. unfold maybe_translate_function. rewrite HF. reflexivity.
Qed.

Lemma maybe_translate_function_null_iff fuel tr address res tr' :
  maybe_translate_function fuel tr address = Some (res, tr') →
  (res = None ↔
     _functions tr !! address = None ∧ dump_functions tr !! address = None)
  ∧ (res = None → tr' = tr)
  ∧ (res ≠ None → ∃ F, _functions tr' !! address = Some F).
Proof.
  unfold maybe_translate_function.
  destruct (_functions tr !! address) as [F|] eqn:HF.
  - intros [= <- <-]. split; [split; [discriminate | intros [? _]; discriminate]|].
    split; [discriminate|]. intros _. eauto.
  - destruct (dump_functions tr !! address) as [bs|] eqn:HD.
    + intros H. apply translate_function_outcome in H
        as (tr1 & F1 & _ & -> & _ & _ & _ & HF' & _).
      split; [split; [discriminate | intros [_ ?]; discriminate]|].
      split; [discriminate|]. intros _. eauto.
    + intros [= <- <-]. split; [split; auto|]. split; [auto|].
      intros Hn. contradiction.
Qed.

(** ** The tail-jump detector *)

(** The detector changes nothing but [is_tail]: keys, addresses,
    super-blocks and the other terminator fields stay; and running it a
    second time changes nothing at all. *)
Theorem detect_tail_jumps_idempotent F :
  detect_tail_jumps (detect_tail_jumps F) = detect_tail_jumps F
  ∧ dom (get_blocks (detect_tail_jumps F)) = dom (get_blocks F)
  ∧ ∀ k b, get_blocks (detect_tail_jumps F) !! k = Some b →
      ∃ b0, get_blocks F !! k = Some b0
            ∧ get_address b = get_address b0
            ∧ get_irsb b = get_irsb b0
            ∧ set_is_tail (is_tail (block_terminator b0)) (block_terminator b)
                = block_terminator b0.
Proof.
  assert (Hdt : ∀ bs bs' b,
            (∀ tgt,
               existsb (is_target tgt) (snd <$> map_to_list bs')
                 = existsb (is_target tgt) (snd <$> map_to_list bs)) →
            detect_tail bs' (detect_tail bs b) = detect_tail bs b).
  { intros bs bs' b Hex. unfold detect_tail at 1 3.
    destruct b as [a ir [ty tg ft tl]]. cbn [block_terminator set_is_tail type target].
    destruct ty; cbn [get_address get_irsb block_terminator set_is_tail
                      type target fall_through is_tail]; try reflexivity.
    unfold detect_tail. cbn. rewrite Hex. reflexivity. }
  split; [|split].
  - unfold detect_tail_jumps at 1 3. cbn [get_blocks set_blocks].
    unfold set_blocks. cbn. f_equal.
    rewrite <- map_fmap_compose. apply map_fmap_ext.
    intros k b Hb. cbn. apply Hdt. intros tgt.
    apply eq_true_iff_eq.
    rewrite !is_target_exists.
    apply (detect_tail_jumps_addresses F tgt).
  - unfold detect_tail_jumps. cbn. apply dom_fmap_L.
  - intros k b Hb. apply detect_tail_jumps_lookup in Hb as (b0 & Hb0 & ->).
    exists b0. split; [exact Hb0|].
    destruct (detect_tail_spec (get_blocks F) b0) as (E1 & E2 & E3 & E4 & E5 & _).
    split; [exact E1|]. split; [exact E2|].
    destruct (block_terminator (detect_tail (get_blocks F) b0)) as [ty tg ft tl].
    destruct (block_terminator b0) as [ty0 tg0 ft0 tl0].
    cbn in *. subst. reflexivity.
Qed.

(** ** Fuel *)

Lemma translate_function_mono_le fuel fuel' tr current x :
  (fuel ≤ fuel')%nat →
  translate_function fuel tr current = Some x →
  translate_function fuel' tr current = Some x.
Proof.
  intros Hle. unfold translate_function.
  destruct (process_blocks fuel _ _ _) as [[r tr1]|] eqn:Hloop;
    [|discriminate].
  rewrite (process_blocks_mono_le _ _ _ _ _ Hle _ _ _ Hloop). auto.
Qed.

Section RegistryTotality.

Hypothesis vex_range : ∀ a n, addr_range (snd (vex_translate a n)).

(** [process_block] has no failure path: it returns on every descriptor
    (the recursion on split descriptors ends because every call that
    lifts inserts a new 64-bit address into [_seen_blocks]), and the
    value it returns is always [true]. *)
Theorem process_block_never_fails tr fn block :
  addr_range (block_start block) →
  (∀ fuel r tr', process_block fuel tr fn block = Some (r, tr') → r = true)
  ∧ ∃ fuel tr',
      ∀ fuel', (fuel ≤ fuel')%nat →
        process_block fuel' tr fn block = Some (true, tr').
Proof.
  intros Hr. split.
  - intros fuel r tr' H.
    apply (process_block_frame _ _ _ _ _ _ _ _ H).
  - destruct (process_block_terminates residual_is_tail _ vex_range
                tr fn block Hr) as (fuel & H).
    destruct (H fuel (Nat.le_refl _)) as (tr' & Htr').
    exists fuel, tr'. intros fuel' Hle.
    eapply process_block_mono_le; eassumption.
Qed.

Lemma translate_function_terminates tr address blocks :
  Forall (λ b, addr_range (block_start b)) blocks →
  ∃ fuel tr',
    ∀ fuel', (fuel ≤ fuel')%nat →
      translate_function fuel' tr (address, blocks)
        = Some (Some address, tr').
Proof.
  intros Hr.
  destruct (process_blocks_terminates residual_is_tail _ vex_range blocks Hr
              (fresh_entry address tr) address) as (fuel & H).
  destruct (H fuel (Nat.le_refl _)) as (tr1 & Hloop).
  assert (Htf : ∃ tr',
            translate_function fuel tr (address, blocks)
              = Some (Some address, tr')).
  { unfold translate_function. cbn [fst snd]. rewrite Hloop. eauto. }
  destruct Htf as (tr' & Htf). exists fuel, tr'. intros fuel' Hle.
  eapply translate_function_mono_le; eassumption.
Qed.

End RegistryTotality.

(** ** Eager translation *)

Local Abbreviation translate_all :=
  (translate_all residual_is_tail vex_translate).
Local Abbreviation parse_known_functions :=
  (parse_known_functions residual_is_tail vex_translate).
Local Abbreviation Translator_new :=
  (Translator_new residual_is_tail vex_translate).

Lemma elem_of_catalog_in_order tr k bs :
  (k, bs) ∈ catalog_in_order tr ↔ dump_functions tr !! k = Some bs.
Proof.
  unfold catalog_in_order. rewrite list_elem_of_omap. split.
  - intros (x & _ & Hx).
    destruct (dump_functions tr !! x) as [bs'|] eqn:E; [|discriminate].
    simpl in Hx. injection Hx as <- <-. exact E.
  - intros Hk. exists k. split; [|rewrite Hk; reflexivity].
    rewrite merge_sort_Permutation. apply elem_of_elements, elem_of_dom.
    eauto.
Qed.

(** What the loop of [parse_known_functions] does to the registry. *)
Lemma translate_all_spec fuel entries :
  ∀ tr tr',
    translate_all fuel tr entries = Some tr' →
    (∀ k, (∃ F, _functions tr !! k = Some F ∧ finalized F = true
                ∧ entry_address F = k) →
          ∃ F, _functions tr' !! k = Some F ∧ finalized F = true
               ∧ entry_address F = k)
    ∧ (∀ k bs, (k, bs) ∈ entries →
          ∃ F, _functions tr' !! k = Some F ∧ finalized F = true
               ∧ entry_address F = k)
    ∧ (∀ k, (∀ bs, (k, bs) ∉ entries) →
            _functions tr' !! k = _functions tr !! k)
    ∧ non_returning tr' = non_returning tr
    ∧ dump_functions tr' = dump_functions tr
    ∧ _is_finalized tr' = _is_finalized tr
    ∧ (registry_wf residual_is_tail tr → registry_wf residual_is_tail tr').
Proof.
  induction entries as [|[k0 bs0] rest IH]; intros tr tr' H; simpl in H.
  { injection H as <-. split; [auto|].
    split; [intros k bs Hin; apply elem_of_nil in Hin; contradiction|].
    split; [auto|]. split; [reflexivity|]. split; [reflexivity|].
    split; [reflexivity|]. auto. }
  destruct (translate_function fuel tr (k0, bs0)) as [[res tr1]|] eqn:Htf;
    [|discriminate].
  destruct (IH _ _ H) as (Hkeep & Hreg & Hout & E1 & E2 & E3 & Hwf).
  pose proof (translate_function_outcome _ _ _ _ _ _ _ _ Htf)
    as (tr1' & F1 & _ & _ & _ & Hff & _ & HF & _).
  apply translate_function_inv in Htf as Hinv.
  destruct Hinv as (tr2 & F2 & Hloop & _ & _ & Etr1).
  destruct (process_blocks_frame _ _ _ _ _ _ _ _ Hloop) as [_ Hfr].
  destruct (fr_dump _ _ _ Hfr) as (D1 & D2 & D3). simpl in D1, D2, D3.
  assert (Hoth : ∀ k, k ≠ k0 → _functions tr1 !! k = _functions tr !! k).
  { intros k Hk. rewrite Etr1. simpl.
    rewrite lookup_insert_ne by congruence.
    rewrite (fr_other _ _ _ Hfr k Hk). simpl.
    apply lookup_insert_ne. congruence. }
  assert (Hnew : ∃ F, _functions tr1 !! k0 = Some F ∧ finalized F = true
                      ∧ entry_address F = k0).
  { eexists. split; [exact HF|]. split; [reflexivity|].
    simpl. apply (ff_entry _ _ _ Hff). }
  split; [|split; [|split]].
  - intros k Hk. apply Hkeep.
    destruct (decide (k = k0)) as [->|Hne]; [exact Hnew|].
    rewrite Hoth by exact Hne. exact Hk.
  - intros k bs Hin. apply elem_of_cons in Hin as [[= -> ->]|Hin].
    + apply Hkeep, Hnew.
    + apply (Hreg k bs Hin).
  - intros k Hk. rewrite Hout.
    + apply Hoth. intros ->. apply (Hk bs0). left.
    + intros bs Hin. apply (Hk bs). right. exact Hin.
  - rewrite Etr1 in E1, E2, E3. simpl in E1, E2, E3.
    split; [congruence|]. split; [congruence|]. split; [congruence|].
    intros Hw. apply Hwf.
    eapply registry_wf_step; [exact Hw | left; exact Htf].
Qed.

(** [parse_known_functions] leaves a finalized function, with its entry
    address, at every address of the catalog; addresses the catalog does
    not list keep what the registry had; the flag and the tables are
    untouched and a consistent registry stays consistent. *)
Theorem parse_known_functions_registers_all fuel tr tr' :
  parse_known_functions fuel tr = Some tr' →
  (∀ a, is_Some (dump_functions tr !! a) →
        ∃ F, _functions tr' !! a = Some F ∧ finalized F = true
             ∧ entry_address F = a)
  ∧ (∀ a, dump_functions tr !! a = None →
          _functions tr' !! a = _functions tr !! a)
  ∧ dump_functions tr' = dump_functions tr
  ∧ _is_finalized tr' = _is_finalized tr
  ∧ (registry_wf residual_is_tail tr → registry_wf residual_is_tail tr').
Proof.
  intros H. apply translate_all_spec in H
    as (_ & Hreg & Hout & _ & E2 & E3 & Hwf).
  split.
  - intros a [bs Hbs]. apply (Hreg a bs), elem_of_catalog_in_order, Hbs.
  - split; [|auto]. intros a Ha. apply Hout. intros bs Hin.
    apply elem_of_catalog_in_order in Hin. congruence.
Qed.

(** The constructor: an unknown format tag fails before anything else;
    otherwise the translator starts unfinalized with the dump file's
    tables, with an empty registry and memo when parsing on demand, and
    with exactly the catalog's addresses registered, each finalized, when
    parsing eagerly; the registry is consistent either way. *)
Theorem Translator_new_spec fuel nr catalog file_format on_demand ind r :
  Translator_new fuel nr catalog file_format on_demand ind = Some r →
  match file_format with
  | FileFormatOther _ => r = inl FormatNotSupported
  | _ =>
      ∃ tr,
        r = inr tr
        ∧ _is_finalized tr = false
        ∧ non_returning tr = nr
        ∧ dump_functions tr = catalog
        ∧ registry_wf residual_is_tail tr
        ∧ (on_demand = true →
           _functions tr = ∅ ∧ _blocks tr = ∅ ∧ _seen_blocks tr = ∅)
        ∧ (on_demand = false →
           ∀ a, is_Some (_functions tr !! a) ↔ is_Some (catalog !! a))
        ∧ (on_demand = false →
           ∀ a F, _functions tr !! a = Some F →
                  finalized F = true ∧ entry_address F = a)
  end.
Proof.
  assert (Hgo :
    (if on_demand
     then Some (inr (set_is_finalized false
                       (MkTranslator ∅ ∅ ∅ ind nr catalog)))
     else
       match parse_known_functions fuel (MkTranslator ∅ ∅ ∅ ind nr catalog)
       with
       | None => None
       | Some tr1 => Some (inr (set_is_finalized false tr1))
       end) = Some r →
    ∃ tr,
      r = inr tr
      ∧ _is_finalized tr = false
      ∧ non_returning tr = nr
      ∧ dump_functions tr = catalog
      ∧ registry_wf residual_is_tail tr
      ∧ (on_demand = true →
         _functions tr = ∅ ∧ _blocks tr = ∅ ∧ _seen_blocks tr = ∅)
      ∧ (on_demand = false →
         ∀ a, is_Some (_functions tr !! a) ↔ is_Some (catalog !! a))
      ∧ (on_demand = false →
         ∀ a F, _functions tr !! a = Some F →
                finalized F = true ∧ entry_address F = a)).
  { destruct on_demand.
    - intros [= <-]. eexists. split; [reflexivity|]. simpl.
      split; [reflexivity|]. split; [reflexivity|]. split; [reflexivity|].
      split; [apply registry_wf_empty|].
      split; [auto|]. split; discriminate.
    - destruct (parse_known_functions fuel _) as [tr1|] eqn:Hp;
        [|discriminate].
      intros [= <-].
      pose proof (translate_all_spec _ _ _ _ Hp)
        as (_ & Hreg & Hout & E1 & E2 & E3 & Hwf).
      simpl in Hout, E1, E2.
      assert (Hdom : ∀ a, is_Some (_functions tr1 !! a)
                          ↔ is_Some (catalog !! a)).
      { intros a. split.
        - intros HF. destruct (catalog !! a) as [bs|] eqn:Hc; [eauto|].
          rewrite Hout in HF.
          + rewrite lookup_empty in HF. destruct HF. discriminate.
          + intros bs Hin. apply elem_of_catalog_in_order in Hin.
            simpl in Hin. congruence.
        - intros [bs Hbs].
          destruct (Hreg a bs) as (F & HF & _); [|eauto].
          apply elem_of_catalog_in_order. exact Hbs. }
      eexists. split; [reflexivity|]. simpl.
      split; [reflexivity|]. split; [exact E1|]. split; [exact E2|].
      split; [exact (Hwf (registry_wf_empty _ _ _ _ _))|].
      split; [discriminate|]. split; [intros _; exact Hdom|].
      intros _ a F HF.
      destruct (proj1 (Hdom a)) as [bs Hbs]; [eauto|].
      destruct (Hreg a bs) as (F' & HF' & P1 & P2).
      { apply elem_of_catalog_in_order. exact Hbs. }
      rewrite HF in HF'. injection HF' as <-. auto. }
  unfold Translator_new. destruct file_format; auto.
  intros [= <-]. reflexivity.
Qed.

Lemma translate_all_mono_le fuel fuel' entries :
  (fuel ≤ fuel')%nat →
  ∀ tr x,
    translate_all fuel tr entries = Some x →
    translate_all fuel' tr entries = Some x.
Proof.
  intros Hle. induction entries as [|kv rest IH]; intros tr x H; simpl in *;
    [assumption|].
  destruct (translate_function fuel tr kv) as [[res tr1]|] eqn:Htf;
    [|discriminate].
  rewrite (translate_function_mono_le _ _ _ _ _ Hle Htf). apply IH, H.
Qed.

Section EagerTotality.

Hypothesis vex_range : ∀ a n, addr_range (snd (vex_translate a n)).

Lemma translate_all_terminates entries :
  Forall (λ kv, Forall (λ b, addr_range (block_start b)) (snd kv)) entries →
  ∀ tr, ∃ fuel tr',
    ∀ fuel', (fuel ≤ fuel')%nat → translate_all fuel' tr entries = Some tr'.
Proof.
  induction 1 as [|[k bs] rest Hkv Hrest IH]; intros tr.
  - exists 0%nat, tr. reflexivity.
  - destruct (translate_function_terminates vex_range tr k bs Hkv)
      as (f1 & tr1 & H1).
    destruct (IH tr1) as (f2 & tr' & H2).
    exists (f1 `max` f2)%nat, tr'. intros fuel' Hle. simpl.
    rewrite H1 by lia. apply H2. lia.
Qed.

(** With 64-bit addresses throughout, [parse_known_functions] returns,
    whatever the lifter answers. *)
Theorem parse_known_functions_returns tr :
  (∀ k bs, dump_functions tr !! k = Some bs →
           Forall (λ b, addr_range (block_start b)) bs) →
  ∃ fuel tr',
    ∀ fuel', (fuel ≤ fuel')%nat → parse_known_functions fuel' tr = Some tr'.
Proof.
  intros Hcat. apply translate_all_terminates.
  apply Forall_forall. intros [k bs] Hin.
  apply elem_of_catalog_in_order in Hin. simpl. eapply Hcat, Hin.
Qed.

End EagerTotality.

End RegistryFacts.

(** * Further properties of the accessors *)

Section AccessorExtras.

Variable residual_is_tail : bool.
Variable vex_translate : Z → nat → IRSB * Z.
Variable contains_address : Function → Z → bool.

Local Abbreviation maybe_translate_function :=
  (maybe_translate_function residual_is_tail vex_translate).
Local Abbreviation get_function :=
  (get_function residual_is_tail vex_translate).
Local Abbreviation maybe_get_function :=
  (maybe_get_function residual_is_tail vex_translate).
Local Abbreviation get_containing_function :=
  (get_containing_function contains_address).

Lemma maybe_translate_function_handle fuel tr address h tr' :
  maybe_translate_function fuel tr address = Some (Some h, tr') →
  h = address.
Proof.
  unfold maybe_translate_function.
  destruct (_functions tr !! address); [intros [= <- _]; reflexivity|].
  destruct (dump_functions tr !! address) as [bs|]; [|discriminate].
  intros H. apply translate_function_outcome in H
    as (_ & _ & _ & [= <-] & _). reflexivity.
Qed.

(** [get_function] fails with NotFound exactly when neither the registry
    nor the catalog knows the address, and then leaves the translator as
    it was; otherwise it returns the address as handle, at which a
    function is registered.  [maybe_get_function] returns null in the
    same case. *)
Theorem get_function_not_found_iff fuel tr address r tr' :
  snd (get_function fuel tr address) = Some (r, tr') →
  (r = inl NotFound ↔
     _functions tr !! address = None ∧ dump_functions tr !! address = None)
  ∧ (r = inl NotFound → tr' = tr)
  ∧ (r ≠ inl NotFound →
     r = inr address ∧ is_Some (_functions tr' !! address))
  ∧ snd (maybe_get_function fuel tr address)
      = Some (match r with inr h => Some h | inl _ => None end, tr').
Proof.
  unfold get_function, maybe_get_function. cbn [snd lock_guard touching].
  destruct (maybe_translate_function fuel tr address) as [[res tr1]|] eqn:H;
    [|discriminate].
  destruct (maybe_translate_function_null_iff _ _ _ _ _ _ _ H)
    as (Hiff & Hsame & Hsome).
  destruct res as [h|]; intros [= <- <-].
  - assert (h = address) as ->.
    { apply maybe_translate_function_handle in H. exact H. }
    split; [split; [discriminate|]|].
    { intros Hn. apply Hiff in Hn. discriminate. }
    split; [discriminate|]. split; [|reflexivity].
    intros _. split; [reflexivity|].
    destruct Hsome as (F & HF); [discriminate|]. rewrite HF. eauto.
  - split; [split; [intros _; apply Hiff; reflexivity | reflexivity]|].
    split; [intros _; apply Hsame; reflexivity|].
    split; [intros Hn; contradiction | reflexivity].
Qed.

(** Once the translator is finalized, [get_functions_mutable] fails with
    Finalized, and nothing un-finalizes it: neither translating on
    demand -- which the flag does not stop -- nor adding cross
    references.  [finalize] sets the flag and changes nothing else. *)
Theorem finalized_translator_stays_closed tr :
  _is_finalized (snd (finalize tr)) = true
  ∧ (_functions (snd (finalize tr)) = _functions tr
     ∧ _blocks (snd (finalize tr)) = _blocks tr
     ∧ _seen_blocks (snd (finalize tr)) = _seen_blocks tr
     ∧ non_returning (snd (finalize tr)) = non_returning tr
     ∧ dump_functions (snd (finalize tr)) = dump_functions tr)
  ∧ snd (finalize (snd (finalize tr))) = snd (finalize tr)
  ∧ (_is_finalized tr = true →
     snd (get_functions_mutable tr) = inl Finalized
     ∧ (∀ fuel address res tr',
          maybe_translate_function fuel tr address = Some (res, tr') →
          snd (get_functions_mutable tr') = inl Finalized)
     ∧ (∀ fct xref tr',
          snd (add_function_xref tr fct xref) = inr tr'
          ∨ snd (add_function_vfunc_xref tr fct xref) = inr tr' →
          snd (get_functions_mutable tr') = inl Finalized))
  ∧ (_is_finalized tr = false →
     snd (get_functions_mutable tr) = inr (_functions tr)).
Proof.
  split; [reflexivity|]. split; [repeat split|]. split; [reflexivity|].
  split.
  - intros Hfin. split; [|split].
    + cbn. rewrite Hfin. reflexivity.
    + intros fuel address res tr' H. cbn.
      assert (E : _is_finalized tr' = _is_finalized tr).
      { unfold maybe_translate_function in H.
        destruct (_functions tr !! address); [injection H as _ <-; auto|].
        destruct (dump_functions tr !! address) as [bs|];
          [|injection H as _ <-; auto].
        apply translate_function_inv in H
          as (tr1 & F1 & Hloop & _ & _ & ->).
        destruct (process_blocks_frame _ _ _ _ _ _ _ _ Hloop) as [_ Hfr].
        destruct (fr_dump _ _ _ Hfr) as (_ & _ & E3). exact E3. }
      rewrite E, Hfin. reflexivity.
    + intros fct xref tr' H. cbn in *.
      destruct (_functions tr !! fct);
        destruct H as [H|H]; try discriminate;
        injection H as <-; cbn; rewrite Hfin; reflexivity.
  - intros Hfin. cbn. rewrite Hfin. reflexivity.
Qed.

(** [add_function_xref] and [add_function_vfunc_xref] fail with NotFound
    exactly when no function is registered at the address, and then
    change nothing; otherwise they change the function at that address
    only -- by [Function::add_xref] resp. [Function::add_vfunc_xref] --
    and leave every other function, the memo and the flag alone. *)
Theorem add_function_xref_spec tr fct xref :
  match _functions tr !! fct with
  | None =>
      snd (add_function_xref tr fct xref) = inl NotFound
      ∧ snd (add_function_vfunc_xref tr fct xref) = inl NotFound
  | Some F =>
      ∃ tr1 tr2,
        snd (add_function_xref tr fct xref) = inr tr1
        ∧ snd (add_function_vfunc_xref tr fct xref) = inr tr2
        ∧ _functions tr1 !! fct = Some (add_xref xref F)
        ∧ _functions tr2 !! fct = Some (add_vfunc_xref xref F)
        ∧ (∀ k, k ≠ fct →
                _functions tr1 !! k = _functions tr !! k
                ∧ _functions tr2 !! k = _functions tr !! k)
        ∧ _seen_blocks tr1 = _seen_blocks tr
        ∧ _blocks tr1 = _blocks tr
        ∧ _seen_blocks tr2 = _seen_blocks tr
        ∧ _blocks tr2 = _blocks tr
  end.
Proof.
  unfold add_function_xref, add_function_vfunc_xref.
  cbn [snd lock_guard touching].
  destruct (_functions tr !! fct) as [F|] eqn:HF; [|auto].
  eexists. eexists. split; [reflexivity|]. split; [reflexivity|].
  cbn. rewrite !lookup_alter_eq, HF. cbn.
  split; [reflexivity|]. split; [reflexivity|].
  split; [|auto].
  intros k Hk. rewrite !lookup_alter_ne by congruence. auto.
Qed.

(** ** [get_containing_function] *)

Lemma elem_of_functions_in_order tr F :
  F ∈ functions_in_order tr ↔ ∃ k, _functions tr !! k = Some F.
Proof.
  unfold functions_in_order. rewrite list_elem_of_omap. split.
  - intros (k & _ & Hk). eauto.
  - intros (k & Hk). exists k. split; [|exact Hk].
    rewrite merge_sort_Permutation. apply elem_of_elements, elem_of_dom.
    eauto.
Qed.

(** The first hit of a scan over [omap f ks]: the key it comes from, and
    no hit among the keys before it. *)
Lemma find_omap_first {K A : Type} (f : K → option A) (p : A → bool) ks x :
  List.find p (omap f ks) = Some x →
  ∃ ks1 k ks2,
    ks = ks1 ++ k :: ks2 ∧ f k = Some x ∧ p x = true
    ∧ ∀ k' y, k' ∈ ks1 → f k' = Some y → p y = false.
Proof.
  induction ks as [|k ks IH]; simpl; [discriminate|].
  destruct (f k) as [y|] eqn:Hk; simpl.
  - destruct (p y) eqn:Hp.
    + intros [= <-]. exists [], k, ks. repeat split; auto.
      intros k' y' Hin. apply elem_of_nil in Hin. contradiction.
    + intros H. destruct (IH H) as (ks1 & k1 & ks2 & -> & H1 & H2 & H3).
      exists (k :: ks1), k1, ks2. repeat split; auto.
      intros k' y' Hin Hy. apply elem_of_cons in Hin as [->|Hin].
      * congruence.
      * eapply H3; eassumption.
  - intros H. destruct (IH H) as (ks1 & k1 & ks2 & -> & H1 & H2 & H3).
    exists (k :: ks1), k1, ks2. repeat split; auto.
    intros k' y' Hin Hy. apply elem_of_cons in Hin as [->|Hin].
    + congruence.
    + eapply H3; eassumption.
Qed.

(** [get_containing_function] returns a registered function that
    contains the address, the one with the least entry key among those
    that do; it fails with NotFound exactly when no registered function
    contains the address. *)
Theorem get_containing_function_spec tr addr :
  match snd (get_containing_function tr addr) with
  | inr F =>
      ∃ k,
        _functions tr !! k = Some F
        ∧ contains_address F addr = true
        ∧ ∀ k' F', k' < k → _functions tr !! k' = Some F' →
                   contains_address F' addr = false
  | inl e =>
      e = NotFound
      ∧ ∀ k F, _functions tr !! k = Some F → contains_address F addr = false
  end.
Proof.
  unfold get_containing_function. cbn [snd touching].
  destruct (List.find _ (functions_in_order tr)) as [F|] eqn:Hfind.
  - unfold functions_in_order in Hfind.
    apply find_omap_first in Hfind
      as (ks1 & k & ks2 & Hks & Hk & Hp & Hbefore).
    exists k. split; [exact Hk|]. split; [exact Hp|].
    intros k' F' Hlt HF'.
    assert (Hin : k' ∈ merge_sort Z.le (elements (dom (_functions tr)))).
    { rewrite merge_sort_Permutation. apply elem_of_elements, elem_of_dom.
      eauto. }
    pose proof (StronglySorted_merge_sort Z.le
                  (elements (dom (_functions tr)))) as Hsorted.
    rewrite Hks in Hin, Hsorted.
    apply elem_of_app in Hin as [Hin|Hin]; [eapply Hbefore; eassumption|].
    exfalso. apply StronglySorted_app_1_r in Hsorted.
    apply StronglySorted_inv in Hsorted as [_ Hall].
    apply elem_of_cons in Hin as [->|Hin]; [lia|].
    rewrite Forall_forall in Hall. specialize (Hall k' Hin). lia.
  - split; [reflexivity|]. intros k F HF.
    apply (List.find_none _ _ Hfind). apply list_elem_of_In.
    apply elem_of_functions_in_order. eauto.
Qed.

End AccessorExtras.

(** * Further concrete runs *)

Lemma jcc_target_provenance_witness :
  ∃ dst, Ist_Exit dst ∈ active jcc_block.
Proof.
  destruct (jcc_target_provenance false jcc_block 0x400200) as [H _].
  - reflexivity.
  - exact H.
Defined.

Lemma truncated_block_falls_through_witness :
  ∃ i a l,
    stmts (fst (demo_lifter 0x500000 3)) !! i = Some (Ist_IMark a l)
    ∧ get_terminator false
        (truncate_block 3 (fst (demo_lifter 0x500000 3))) 0x500000
        = MkTerminator TerminatorFallthrough 0 a false.
Proof.
  destruct (truncated_block_falls_through false 3
              (fst (demo_lifter 0x500000 3)) 0x500000 ∅)
    as (i & a & l & H1 & _ & H3 & _).
  - vm_compute. lia.
  - exists i, a, l. split; [exact H1 | exact H3].
Defined.

Lemma translate_function_never_null_witness :
  ∃ F,
    _functions translated_split !! 0x600000 = Some F
    ∧ finalized F = true
    ∧ entry_address F = 0x600000.
Proof.
  destruct (translate_function_never_null false demo_lifter 3 tr_empty
              0x600000 [split_descriptor] (Some 0x600000) translated_split)
    as (_ & F & H1 & H2 & H3 & _).
  - reflexivity.
  - exists F. auto.
Defined.

Lemma translate_function_memo_witness :
  0x600000 ∈ _seen_blocks translated_split.
Proof.
  destruct (translate_function_memo false demo_lifter 3 tr_empty
              0x600000 [split_descriptor] (Some 0x600000) translated_split)
    as (_ & _ & H & _).
  - reflexivity.
  - apply (H split_descriptor); [left | discriminate].
Defined.

Lemma translate_function_frame_witness :
  _functions translated_split !! 0x500000 = None
  ∧ non_returning translated_split = {[ 0x700000 ]}.
Proof.
  destruct (translate_function_frame false demo_lifter 3 tr_empty
              0x600000 [split_descriptor] (Some 0x600000) translated_split)
    as (H1 & H2 & _).
  - reflexivity.
  - split; [rewrite H1 by discriminate; reflexivity | exact H2].
Defined.

Lemma translated_blocks_classified_witness :
  get_address tail_block = 0x600020
  ∧ _blocks translated_split !! 0x600020 = Some (get_irsb tail_block).
Proof.
  destruct (translated_blocks_classified false demo_lifter 3 tr_empty
              0x600000 [split_descriptor] (Some 0x600000) translated_split
              split_function 0x600020 tail_block)
    as (H1 & H2 & _).
  - reflexivity.
  - vm_compute. reflexivity.
  - vm_compute. reflexivity.
  - split; [exact H1 | exact H2].
Defined.

Lemma translated_block_addresses_witness :
  (0x600020 ∉ _seen_blocks tr_empty)
  ∧ (0x600020 ∈ _seen_blocks translated_split).
Proof.
  destruct (translated_block_addresses false demo_lifter 3 tr_empty
              0x600000 [split_descriptor] (Some 0x600000) translated_split
              split_function 0x600020 tail_block)
    as (H1 & H2 & _).
  - reflexivity.
  - vm_compute. reflexivity.
  - vm_compute. reflexivity.
  - split; [exact H1 | exact H2].
Defined.

Lemma registry_wf_preserved_witness :
  registry_wf false translated_split.
Proof.
  destruct (registry_wf_preserved false demo_lifter 3 tr_empty
              0x600000 [split_descriptor] (Some 0x600000) translated_split)
    as [H _].
  - apply registry_wf_empty.
  - left. reflexivity.
  - exact H.
Defined.

Lemma maybe_translate_function_cached_witness :
  maybe_translate_function false demo_lifter 0 translated_catalog 0x600000
    = Some (Some 0x600000, translated_catalog).
Proof.
  destruct (maybe_translate_function_cached false demo_lifter 3 tr_catalog
              0x600000 0x600000 translated_catalog) as (_ & _ & H).
  - vm_compute. reflexivity.
  - exact (H 0%nat).
Defined.

Lemma process_block_never_fails_witness :
  ∃ fuel tr',
    ∀ fuel', (fuel ≤ fuel')%nat →
      process_block false demo_lifter fuel' tr_empty 0x600000
        split_descriptor = Some (true, tr').
Proof.
  destruct (process_block_never_fails false demo_lifter demo_lifter_range
              tr_empty 0x600000 split_descriptor) as [_ H].
  - unfold addr_range. simpl. lia.
  - exact H.
Defined.

Lemma parse_known_functions_witness :
  ∃ F,
    _functions parsed_catalog !! 0x600000 = Some F
    ∧ finalized F = true
    ∧ entry_address F = 0x600000.
Proof.
  destruct (parse_known_functions_registers_all false demo_lifter 3
              tr_catalog parsed_catalog) as (H & _).
  - vm_compute. reflexivity.
  - apply H. vm_compute. eauto.
Defined.

Lemma parse_known_functions_returns_witness :
  ∃ fuel tr',
    ∀ fuel', (fuel ≤ fuel')%nat →
      parse_known_functions false demo_lifter fuel' tr_catalog = Some tr'.
Proof.
  apply (parse_known_functions_returns false demo_lifter demo_lifter_range
           tr_catalog).
  intros k bs Hk. simpl in Hk.
  apply lookup_singleton_Some in Hk as [_ <-].
  repeat constructor; unfold addr_range; simpl; lia.
Defined.

Lemma Translator_new_witness :
  ∃ tr,
    Translator_new false demo_lifter 3 {[ 0x700000 ]}
      {[ 0x600000 := [split_descriptor] ]} FileFormatELF64 false true
      = Some (inr tr)
    ∧ _is_finalized tr = false
    ∧ is_Some (_functions tr !! 0x600000).
Proof.
  destruct (Translator_new_spec false demo_lifter 3 {[ 0x700000 ]}
              {[ 0x600000 := [split_descriptor] ]} FileFormatELF64 false
              true (inr parsed_catalog))
    as (tr & H1 & H2 & _ & _ & _ & _ & H7 & _).
  - vm_compute. reflexivity.
  - injection H1 as <-. exists parsed_catalog.
    split; [vm_compute; reflexivity|]. split; [exact H2|].
    apply H7; [reflexivity|]. vm_compute. eauto.
Defined.

Lemma get_function_not_found_witness :
  snd (get_function false demo_lifter 3 tr_catalog 0x1234)
    = Some (inl NotFound, tr_catalog)
  ∧ snd (maybe_get_function false demo_lifter 3 tr_catalog 0x1234)
      = Some (None, tr_catalog).
Proof.
  destruct (get_function_not_found_iff false demo_lifter 3 tr_catalog 0x1234
              (inl NotFound) tr_catalog) as (_ & _ & _ & H).
  - vm_compute. reflexivity.
  - split; [vm_compute; reflexivity | exact H].
Defined.

(** ** A failing block processor *)


